(** * Live-galaxy: the duplex audio, scheduling and caption engine

    A shallow embedding of [GalaxyScene]: the base64 helpers, the PCM16
    decoder, the [onmessage] handler of the live session (transcript words,
    gapless scheduling of audio buffers, interruption) and the per-frame
    [render] callback (volume smoothing, caption pacing, grace-period clear).

    Conventions.
    - A JavaScript number is an exact rational ([Q]); rounding of IEEE
      doubles is not modelled.
    - A JavaScript string is a [string] whose characters are code units
      below 256; a [Uint8Array] is a [list byte].
    - A JavaScript exception inside a [try] block is a [None] result.
    - The browser is the environment: it delivers events one at a time
      (a server message, the end of a buffer source, an animation frame, a
      timer), each one handled to completion before the next. *)

From Stdlib Require Import ZArith NArith QArith Qround Qminmax Qabs.
From Stdlib Require Import List String Ascii Strings.Byte Bool Lia Lqa.
From Stdlib Require Import DecimalString DecimalZ DecimalPos.
Import ListNotations.

Local Open Scope Z_scope.

(* ================================================================= *)
(** * Part I: the program *)

(** ** Base64 helpers: [decode] and [encode]

    Both wrap the platform functions [atob] and [btoa], which are not part of
    the repository.  They are modelled from their standard: [btoa] is the
    RFC 4648 base64 encoder with padding, [atob] is the WHATWG
    forgiving-base64 decoder. *)
Module Base64.

(** The base64 alphabet, as a function from a sextet to a character code. *)
Definition alphabet_code (s : N) : N :=
  (if s <? 26 then s + 65
   else if s <? 52 then s + 71
   else if s <? 62 then s - 4
   else if s =? 62 then 43
   else 47)%N.

(** The position of a character code in the alphabet, if it has one. *)
Definition alphabet_index (c : N) : option N :=
  (if (65 <=? c) && (c <=? 90) then Some (c - 65)
   else if (97 <=? c) && (c <=? 122) then Some (c - 71)
   else if (48 <=? c) && (c <=? 57) then Some (c + 4)
   else if c =? 43 then Some 62
   else if c =? 47 then Some 63
   else None)%N.

Definition pad_code : N := 61.  (* "=" *)

(** [btoa] on character codes: three bytes give four sextets, a trailing
    group of one or two bytes is padded with "=". *)
Fixpoint btoa_codes (l : list N) : list N :=
  match l with
  | [] => []
  | [a] =>
      [alphabet_code (a / 4); alphabet_code ((a mod 4) * 16);
       pad_code; pad_code]
  | [a; b] =>
      [alphabet_code (a / 4); alphabet_code ((a mod 4) * 16 + b / 16);
       alphabet_code ((b mod 16) * 4); pad_code]
  | a :: b :: c :: r =>
      alphabet_code (a / 4)
      :: alphabet_code ((a mod 4) * 16 + b / 16)
      :: alphabet_code ((b mod 16) * 4 + c / 64)
      :: alphabet_code (c mod 64)
      :: btoa_codes r
  end%N.

Definition codes_of_string (s : string) : list N :=
  map N_of_ascii (list_ascii_of_string s).

Definition string_of_codes (l : list N) : string :=
  string_of_list_ascii (map ascii_of_N l).

(** [btoa(binary)]: every character of a [string] is below 256, so the
    InvalidCharacterError of the platform function cannot arise. *)
Definition btoa (binary : string) : string :=
  string_of_codes (btoa_codes (codes_of_string binary)).

(** ASCII whitespace of the forgiving decoder: TAB, LF, FF, CR, SPACE. *)
Definition is_ascii_whitespace (c : N) : bool :=
  ((c =? 9) || (c =? 10) || (c =? 12) || (c =? 13) || (c =? 32))%N.

(** Step 2 of the forgiving decoder: when the length is a multiple of four,
    one or two trailing "=" are removed. *)
Definition strip_padding (l : list N) : list N :=
  if (Nat.modulo (List.length l) 4 =? 0)%nat then
    match rev' l with
    | p :: q :: r =>
        if (p =? pad_code)%N then
          if (q =? pad_code)%N then rev' r else rev' (q :: r)
        else l
    | [p] => if (p =? pad_code)%N then [] else l
    | [] => l
    end
  else l.

(** All characters must be in the alphabet. *)
Fixpoint sextets_of_codes (l : list N) : option (list N) :=
  match l with
  | [] => Some []
  | c :: r =>
      match alphabet_index c, sextets_of_codes r with
      | Some s, Some ss => Some (s :: ss)
      | _, _ => None
      end
  end.

(** Four sextets give three bytes; a trailing group of three gives two bytes
    and of two gives one byte, the spare bits being discarded. *)
Fixpoint bytes_of_sextets (l : list N) : list N :=
  match l with
  | s1 :: s2 :: s3 :: s4 :: r =>
      (s1 * 4 + s2 / 16)
      :: ((s2 mod 16) * 16 + s3 / 4)
      :: ((s3 mod 4) * 64 + s4)
      :: bytes_of_sextets r
  | [s1; s2; s3] => [s1 * 4 + s2 / 16; (s2 mod 16) * 16 + s3 / 4]
  | [s1; s2] => [s1 * 4 + s2 / 16]
  | _ => []
  end%N.

Definition atob_codes (l : list N) : option (list N) :=
  let data := strip_padding (filter (fun c => negb (is_ascii_whitespace c)) l) in
  if (Nat.modulo (List.length data) 4 =? 1)%nat then None
  else option_map bytes_of_sextets (sextets_of_codes data).

(** [atob(base64)]; [None] is the InvalidCharacterError. *)
Definition atob (base64 : string) : option string :=
  option_map string_of_codes (atob_codes (codes_of_string base64)).

(** [function decode(base64: string): Uint8Array]: one byte per character of
    the binary string. *)
Definition decode (base64 : string) : option (list byte) :=
  match atob base64 with
  | None => None
  | Some binaryString => Some (list_byte_of_string binaryString)
  end.

Definition chunkSize : nat := N.to_nat 8192.

(** [bytes.subarray(i, j)] for [0 <= i <= j]. *)
Definition subarray (bytes : list byte) (i j : nat) : list byte :=
  firstn (j - i) (skipn i bytes).

(** [String.fromCharCode.apply(null, chunk)]. *)
Definition fromCharCode (chunk : list byte) : string :=
  string_of_list_byte chunk.

(** The loop of [encode]: [for (i = 0; i < bytes.length; i += chunkSize)].
    [fuel] bounds the number of iterations. *)
Fixpoint encode_loop (size : nat) (fuel : nat) (bytes : list byte)
    (i : nat) (binary : string) : string :=
  match fuel with
  | O => binary
  | S fuel' =>
      if (i <? List.length bytes)%nat then
        let chunk := subarray bytes i (i + size) in
        encode_loop size fuel' bytes (i + size) (binary ++ fromCharCode chunk)%string
      else binary
  end.

(** [function encode(bytes: Uint8Array): string]. *)
Definition encode (bytes : list byte) : string :=
  btoa (encode_loop chunkSize (List.length bytes) bytes 0 EmptyString).

(** *** Auxiliary: the shape of the output of [btoa] *)

(** The sextets that [btoa] prints before the padding. *)
Fixpoint sextets (l : list N) : list N :=
  match l with
  | [] => []
  | [a] => [a / 4; (a mod 4) * 16]
  | [a; b] => [a / 4; (a mod 4) * 16 + b / 16; (b mod 16) * 4]
  | a :: b :: c :: r =>
      a / 4 :: (a mod 4) * 16 + b / 16 :: (b mod 16) * 4 + c / 64
      :: c mod 64 :: sextets r
  end%N.

Definition padding (l : list N) : list N :=
  match (List.length l mod 3)%nat with
  | 1%nat => [pad_code; pad_code]
  | 2%nat => [pad_code]
  | _ => []
  end.

End Base64.

(** ** PCM16 decoding: [decodeAudioData] *)
Module Audio.

Local Open Scope Q_scope.

(** An [AudioBuffer]: one list of samples per channel. *)
Record AudioBuffer := mkAudioBuffer {
  channelData : list (list Q);
  frameCount : nat;
  sampleRate : Q
}.

(** [audioBuffer.duration]: the length in frames over the sample rate. *)
Definition duration (b : AudioBuffer) : Q :=
  inject_Z (Z.of_nat (frameCount b)) / sampleRate b.

Definition signed16 (u : Z) : Z :=
  (if u <? 32768 then u else u - 65536)%Z.

(** [new Int16Array(data.buffer)]: little-endian pairs; a buffer of odd
    byte length raises a RangeError. *)
Fixpoint int16Array (data : list byte) : option (list Z) :=
  match data with
  | [] => Some []
  | [_] => None
  | lo :: hi :: rest =>
      option_map
        (cons (signed16 (Z.of_N (Byte.to_N lo) + 256 * Z.of_N (Byte.to_N hi))))
        (int16Array rest)
  end.

(** The elements at positions [skip], [skip + period], ... of [l]. *)
Fixpoint every_nth (period skip : nat) (l : list Z) : list Z :=
  match l with
  | [] => []
  | x :: r =>
      match skip with
      | O => x :: every_nth period (period - 1) r
      | S k => every_nth period k r
      end
  end.

(** [decodeAudioData(data, ctx, sampleRate, numChannels)].  [ctx.createBuffer]
    raises NotSupportedError for zero channels or zero frames.  Sample [i] of
    a channel is [dataInt16[i * numChannels + channel] / 32768.0]. *)
Definition decodeAudioData (data : list byte) (rate : Q) (numChannels : nat)
  : option AudioBuffer :=
  match int16Array data with
  | None => None
  | Some dataInt16 =>
      let frames := (List.length dataInt16 / numChannels)%nat in
      if ((numChannels =? 0) || (frames =? 0))%nat then None
      else
        Some {| channelData :=
                  map (fun channel =>
                         map (fun v => inject_Z v / 32768)
                             (firstn frames (every_nth numChannels channel dataInt16)))
                      (seq 0 numChannels);
                frameCount := frames;
                sampleRate := rate |}
  end.

End Audio.

(** ** The scene: session handler and animation frame *)
Module Scene.
Import Base64 Audio.

Local Open Scope Q_scope.

(** [x < y] on numbers, as a boolean. *)
Definition Qltb (x y : Q) : bool := negb (Qle_bool y x).

(** *** Transcript words *)

(** White space of [trim] and of the regular expression class [\s], among
    the code units below 256. *)
Definition isWhiteSpace (c : ascii) : bool :=
  let n := N_of_ascii c in
  ((n =? 9) || (n =? 10) || (n =? 11) || (n =? 12) || (n =? 13)
   || (n =? 32) || (n =? 160))%N.

Fixpoint trimStart (l : list ascii) : list ascii :=
  match l with
  | c :: r => if isWhiteSpace c then trimStart r else l
  | [] => []
  end.

(** [text.trim()]. *)
Definition trim (l : list ascii) : list ascii :=
  rev (trimStart (rev (trimStart l))).

(** [text.split(/\s+/)]: [cur] is the piece being read, reversed; [inSep]
    says that the previous character was white space. *)
Fixpoint splitWs (cur : list ascii) (inSep : bool) (l : list ascii)
  : list (list ascii) :=
  match l with
  | [] => [rev cur]
  | c :: r =>
      if isWhiteSpace c then
        if inSep then splitWs cur true r
        else rev cur :: splitWs [] true r
      else splitWs (c :: cur) false r
  end.

(** The words pushed for one transcription text. *)
Definition newWordsOf (transcription : string) : list string :=
  let text := trim (list_ascii_of_string transcription) in
  match text with
  | [] => []
  | _ =>
      map string_of_list_ascii
          (filter (fun w => (0 <? List.length w)%nat) (splitWs [] false text))
  end.

(** *** State and effects *)

(** The value given to [setKineticText]. *)
Record Caption := mkCaption {
  words : list string;
  activeIndex : Z
}.

Definition noCaption : Caption := {| words := []; activeIndex := -1 |}.

(** What a handler does to the outside: buffer sources started and stopped
    (a source is named by its creation rank), React state updates, the
    console. *)
Inductive Effect :=
| Start (source : nat) (when : Q) (length : Q)
| Stop (source : nat)
| SetKineticText (c : Caption)
| SetStatus (s : string)
| ConsoleError.

Record State := mkState {
  (* teleprompter sync variables *)
  turnWords : list string;
  turnStartTime : Q;
  turnAudioDuration : Q;
  nextStartTime : Q;
  previousStateKey : string;
  (* refs and React state *)
  sources : list nat;             (* sourcesRef.current, in insertion order *)
  aiWasPlaying : bool;            (* aiWasPlayingRef.current *)
  clearTextTimeout : option nat;  (* clearTextTimeoutRef.current *)
  kineticText : Caption;
  uVolume : Q;                    (* uniforms.uVolume.value *)
  (* the browser *)
  created : nat;                  (* buffer sources created so far *)
  timers : list (nat * Q);        (* pending timeouts: id and due time, ms *)
  timerCount : nat                (* timeouts requested so far *)
}.

Definition initial : State :=
  {| turnWords := []; turnStartTime := 0; turnAudioDuration := 0;
     nextStartTime := 0; previousStateKey := EmptyString;
     sources := []; aiWasPlaying := false; clearTextTimeout := None;
     kineticText := noCaption; uVolume := 0;
     created := O; timers := []; timerCount := O |}.

Definition set_turnWords (v : list string) (s : State) : State :=
  mkState v (turnStartTime s) (turnAudioDuration s) (nextStartTime s)
    (previousStateKey s) (sources s) (aiWasPlaying s) (clearTextTimeout s)
    (kineticText s) (uVolume s) (created s) (timers s) (timerCount s).
Definition set_turnStartTime (v : Q) (s : State) : State :=
  mkState (turnWords s) v (turnAudioDuration s) (nextStartTime s)
    (previousStateKey s) (sources s) (aiWasPlaying s) (clearTextTimeout s)
    (kineticText s) (uVolume s) (created s) (timers s) (timerCount s).
Definition set_turnAudioDuration (v : Q) (s : State) : State :=
  mkState (turnWords s) (turnStartTime s) v (nextStartTime s)
    (previousStateKey s) (sources s) (aiWasPlaying s) (clearTextTimeout s)
    (kineticText s) (uVolume s) (created s) (timers s) (timerCount s).
Definition set_nextStartTime (v : Q) (s : State) : State :=
  mkState (turnWords s) (turnStartTime s) (turnAudioDuration s) v
    (previousStateKey s) (sources s) (aiWasPlaying s) (clearTextTimeout s)
    (kineticText s) (uVolume s) (created s) (timers s) (timerCount s).
Definition set_previousStateKey (v : string) (s : State) : State :=
  mkState (turnWords s) (turnStartTime s) (turnAudioDuration s)
    (nextStartTime s) v (sources s) (aiWasPlaying s) (clearTextTimeout s)
    (kineticText s) (uVolume s) (created s) (timers s) (timerCount s).
Definition set_sources (v : list nat) (s : State) : State :=
  mkState (turnWords s) (turnStartTime s) (turnAudioDuration s)
    (nextStartTime s) (previousStateKey s) v (aiWasPlaying s)
    (clearTextTimeout s) (kineticText s) (uVolume s) (created s) (timers s)
    (timerCount s).
Definition set_aiWasPlaying (v : bool) (s : State) : State :=
  mkState (turnWords s) (turnStartTime s) (turnAudioDuration s)
    (nextStartTime s) (previousStateKey s) (sources s) v
    (clearTextTimeout s) (kineticText s) (uVolume s) (created s) (timers s)
    (timerCount s).
Definition set_clearTextTimeout (v : option nat) (s : State) : State :=
  mkState (turnWords s) (turnStartTime s) (turnAudioDuration s)
    (nextStartTime s) (previousStateKey s) (sources s) (aiWasPlaying s) v
    (kineticText s) (uVolume s) (created s) (timers s) (timerCount s).
Definition set_kineticText (v : Caption) (s : State) : State :=
  mkState (turnWords s) (turnStartTime s) (turnAudioDuration s)
    (nextStartTime s) (previousStateKey s) (sources s) (aiWasPlaying s)
    (clearTextTimeout s) v (uVolume s) (created s) (timers s) (timerCount s).
Definition set_uVolume (v : Q) (s : State) : State :=
  mkState (turnWords s) (turnStartTime s) (turnAudioDuration s)
    (nextStartTime s) (previousStateKey s) (sources s) (aiWasPlaying s)
    (clearTextTimeout s) (kineticText s) v (created s) (timers s)
    (timerCount s).
Definition set_created (v : nat) (s : State) : State :=
  mkState (turnWords s) (turnStartTime s) (turnAudioDuration s)
    (nextStartTime s) (previousStateKey s) (sources s) (aiWasPlaying s)
    (clearTextTimeout s) (kineticText s) (uVolume s) v (timers s)
    (timerCount s).
Definition set_timers (v : list (nat * Q)) (s : State) : State :=
  mkState (turnWords s) (turnStartTime s) (turnAudioDuration s)
    (nextStartTime s) (previousStateKey s) (sources s) (aiWasPlaying s)
    (clearTextTimeout s) (kineticText s) (uVolume s) (created s) v
    (timerCount s).
Definition set_timerCount (v : nat) (s : State) : State :=
  mkState (turnWords s) (turnStartTime s) (turnAudioDuration s)
    (nextStartTime s) (previousStateKey s) (sources s) (aiWasPlaying s)
    (clearTextTimeout s) (kineticText s) (uVolume s) (created s) (timers s) v.

(** A handler changes the state and performs effects, in order. *)
Definition Handler : Type := State -> State * list Effect.

Definition skip : Handler := fun s => (s, []).
Definition update (f : State -> State) : Handler := fun s => (f s, []).
Definition perform (e : Effect) : Handler := fun s => (s, [e]).
Definition andThen (h k : Handler) : Handler :=
  fun s => let (s1, e1) := h s in let (s2, e2) := k s1 in (s2, e1 ++ e2).

Declare Scope handler_scope.
Delimit Scope handler_scope with handler.
Bind Scope handler_scope with Handler.
Notation "h ;; k" := (andThen h k)
  (at level 61, right associativity) : handler_scope.

(** [React.useState]: the setter stores the value and is seen outside. *)
Definition setKineticText (c : Caption) : Handler :=
  (update (set_kineticText c) ;; perform (SetKineticText c))%handler.

(** *** [Set] operations on [sourcesRef.current] *)

Definition setAdd (x : nat) (l : list nat) : list nat :=
  if existsb (Nat.eqb x) l then l else l ++ [x].

Definition setDelete (x : nat) (l : list nat) : list nat :=
  filter (fun y => negb (Nat.eqb x y)) l.

(** *** [onmessage] *)

(** The fields of a [LiveServerMessage] that the handler reads. *)
Record LiveServerMessage := mkMessage {
  outputTranscription : option string;  (* serverContent?.outputTranscription.text *)
  inlineData : option string;  (* serverContent?.modelTurn?.parts?.[0]?.inlineData?.data *)
  interrupted : bool           (* serverContent?.interrupted *)
}.

Definition pushWords (m : LiveServerMessage) : Handler :=
  match outputTranscription m with
  | Some text => update (fun s => set_turnWords (turnWords s ++ newWordsOf text) s)
  | None => skip
  end.

(** Line 358: no schedule time is set, or it has passed on the output
    clock. *)
Definition resyncs (currentTime : Q) (s : State) : bool :=
  Qeq_bool (nextStartTime s) 0 || Qltb (nextStartTime s) currentTime.

(** Lines 358-367. *)
Definition resync (currentTime : Q) (s : State) : State :=
  if resyncs currentTime s then
    if Qeq_bool (turnAudioDuration s) 0 then
      set_nextStartTime currentTime (set_turnStartTime currentTime s)
    else
      let gap := currentTime - nextStartTime s in
      let s1 :=
        if Qltb 0 gap then set_turnStartTime (turnStartTime s + gap) s else s in
      set_nextStartTime currentTime s1
  else s.

(** Lines 369-380: a new buffer source is started at [nextStartTime].
    [source.start] raises only for a negative time; the output clock is never
    negative, and that path is not modelled. *)
Definition schedule (audioBuffer : AudioBuffer) : Handler :=
  fun s =>
    let source := created s in
    let s1 := set_created (S source) s in
    let e := Start source (nextStartTime s1) (duration audioBuffer) in
    let s2 := set_nextStartTime (nextStartTime s1 + duration audioBuffer) s1 in
    let s3 := set_sources (setAdd source (sources s2)) s2 in
    let s4 :=
      set_turnAudioDuration (turnAudioDuration s3 + duration audioBuffer) s3 in
    (s4, [e]).

(** Line 356: [decodeAudioData(decode(base64Audio), ctx, 24000, 1)]. *)
Definition decodeDelta (base64Audio : string) : option AudioBuffer :=
  match decode base64Audio with
  | None => None
  | Some data => decodeAudioData data 24000 1
  end.

(** Lines 353-384.  An empty string is falsy.  The [await] yields to the
    microtask queue only: no other event is handled before the rest of the
    handler has run. *)
Definition playAudio (currentTime : Q) (m : LiveServerMessage) : Handler :=
  match inlineData m with
  | None => skip
  | Some EmptyString => skip
  | Some base64Audio =>
      match decodeDelta base64Audio with
      | None => perform ConsoleError
      | Some audioBuffer =>
          (update (resync currentTime) ;; schedule audioBuffer)%handler
      end
  end.

(** The [for ... of] loop of lines 392-395 over the live set. *)
Fixpoint stopEach (pending : list nat) : Handler :=
  match pending with
  | [] => skip
  | source :: rest =>
      (perform (Stop source) ;;
       update (fun s => set_sources (setDelete source (sources s)) s) ;;
       stopEach rest)%handler
  end.

(** Lines 386-397. *)
Definition interrupt (m : LiveServerMessage) : Handler :=
  if interrupted m then
    (update (set_turnWords []) ;;
     update (set_turnAudioDuration 0) ;;
     update (set_turnStartTime 0) ;;
     update (set_previousStateKey EmptyString) ;;
     setKineticText noCaption ;;
     (fun s => stopEach (sources s) s) ;;
     update (set_nextStartTime 0))%handler
  else skip.

Definition onmessage (currentTime : Q) (m : LiveServerMessage) : Handler :=
  (pushWords m ;; playAudio currentTime m ;; interrupt m)%handler.

(** *** [render] *)

(** What one animation frame reads from the browser. *)
Record FrameInput := mkFrame {
  clockDelta : Q;                  (* clock.getDelta(), seconds *)
  spectrum : option (list byte);   (* getByteFrequencyData, once set up *)
  outputTime : Q;                  (* outputAudioCtxRef.current.currentTime *)
  wallTime : Q                     (* the time of the frame, ms *)
}.

Definition noiseGate : Q := 3.
Definition maxVol : Q := 60.

Definition byteSum (dataArray : list byte) : Q :=
  fold_left (fun sum b => sum + inject_Z (Z.of_N (Byte.to_N b))) dataArray 0.

(** Lines 438-452. *)
Definition currentVolumeOf (sp : option (list byte)) : Q :=
  match sp with
  | None => 0
  | Some dataArray =>
      let avgVolume :=
        byteSum dataArray / inject_Z (Z.of_nat (List.length dataArray)) in
      if Qltb noiseGate avgVolume then
        Qmin 1 (Qmax 0 ((avgVolume - noiseGate) / (maxVol - noiseGate)))
      else 0
  end.

(** Lines 454-455. *)
Definition smoothVolume (volume currentVolume delta : Q) : Q :=
  let lerpSpeed := if Qltb volume currentVolume then 16 else 4 in
  volume + (currentVolume - volume) * lerpSpeed * delta.

Definition CHUNK_SIZE : Z := 5.

(** Lines 464-465. *)
Definition smoothedWps (wordCount : nat) (audioDuration : Q) : Q :=
  let rawWps := inject_Z (Z.of_nat wordCount) / Qmax (1 # 10) audioDuration in
  Qmin (Qmax rawWps 2) 6.

(** Lines 461-468. *)
Definition activeWordAbsolute (s : State) (currentTime : Q) : Z :=
  let elapsed :=
    Qmax 0 (Qmin (currentTime - turnStartTime s) (turnAudioDuration s)) in
  let wps := smoothedWps (List.length (turnWords s)) (turnAudioDuration s) in
  Z.min (Qfloor (elapsed * wps)) (Z.of_nat (List.length (turnWords s)) - 1).

(** [l.slice(from, to)] for [0 <= from <= to]. *)
Definition slice (l : list string) (from to : Z) : list string :=
  firstn (Z.to_nat (to - from)) (skipn (Z.to_nat from) l).

Definition decimal (z : Z) : string := NilZero.string_of_int (Z.to_int z).

(** The template [`${chunkIndex}-${indexInChunk}`]. *)
Definition stateKeyOf (chunkIndex indexInChunk : Z) : string :=
  (decimal chunkIndex ++ "-" ++ decimal indexInChunk)%string.

(** Lines 471-482 and 500-509: the chunk of word [wordIndex] is shown, with
    that word active, unless the key is the one shown last. *)
Definition showWord (wordIndex : Z) : Handler :=
  fun s =>
    let chunkIndex := (wordIndex / CHUNK_SIZE)%Z in
    let indexInChunk := Z.rem wordIndex CHUNK_SIZE in
    let chunkWords :=
      slice (turnWords s) (chunkIndex * CHUNK_SIZE)
            ((chunkIndex + 1) * CHUNK_SIZE) in
    let stateKey := stateKeyOf chunkIndex indexInChunk in
    if String.eqb stateKey (previousStateKey s) then (s, [])
    else
      (update (set_previousStateKey stateKey) ;;
       setKineticText {| words := chunkWords; activeIndex := indexInChunk |})%handler s.

(** Lines 460-484.  [outputAudioCtxRef.current] is set before the session
    opens, hence whenever a source is live. *)
Definition paceCaption (currentTime : Q) : Handler :=
  fun s =>
    if Qltb 0 (turnAudioDuration s) && (0 <? List.length (turnWords s))%nat then
      let active := activeWordAbsolute s currentTime in
      if (0 <=? active)%Z then showWord active s else (s, [])
    else (s, []).

Definition clearTimeout (id : nat) (s : State) : State :=
  set_timers (filter (fun t => negb (Nat.eqb (fst t) id)) (timers s)) s.

(** Lines 486-493.  Timer ids are positive, hence truthy. *)
Definition risingEdge : Handler :=
  fun s =>
    if aiWasPlaying s then (s, [])
    else
      (update (set_aiWasPlaying true) ;;
       perform (SetStatus "AI is speaking...") ;;
       update (fun s =>
                 match clearTextTimeout s with
                 | Some id => set_clearTextTimeout None (clearTimeout id s)
                 | None => s
                 end))%handler s.

Definition gracePeriod : Q := 3500.

(** [window.setTimeout(callback, 3500)] called at wall time [now]: the id is
    stored in [clearTextTimeoutRef]. *)
Definition setClearTimeout (now : Q) (s : State) : State :=
  let id := S (timerCount s) in
  set_clearTextTimeout (Some id)
    (set_timers (timers s ++ [(id, now + gracePeriod)])
       (set_timerCount id s)).

(** Lines 494-520. *)
Definition fallingEdge (now : Q) : Handler :=
  (update (set_aiWasPlaying false) ;;
   perform (SetStatus "Listening...") ;;
   (fun s =>
      match turnWords s with
      | [] => (s, [])
      | _ => showWord (Z.of_nat (List.length (turnWords s)) - 1) s
      end) ;;
   update (setClearTimeout now))%handler.

(** Lines 431-526, without the drawing.  The last branch of the source tests
    [status], which inside the effect is the value of the first rendering,
    'Initializing WebGL...': it never includes 'Connected'. *)
Definition render (f : FrameInput) : Handler :=
  fun s =>
    let delta := Qmin (clockDelta f) (1 # 10) in
    let currentVolume := currentVolumeOf (spectrum f) in
    let s := set_uVolume (smoothVolume (uVolume s) currentVolume delta) s in
    let isPlaying := (0 <? List.length (sources s))%nat in
    if isPlaying then
      (paceCaption (outputTime f) ;; risingEdge)%handler s
    else if aiWasPlaying s then fallingEdge (wallTime f) s
    else (s, []).

(** Lines 512-520: the callback of the grace timer. *)
Definition clearText : Handler :=
  fun s =>
    match sources s with
    | [] =>
        (update (set_turnWords []) ;;
         update (set_turnAudioDuration 0) ;;
         update (set_turnStartTime 0) ;;
         update (set_previousStateKey EmptyString) ;;
         setKineticText noCaption)%handler s
    | _ => (s, [])
    end.

(** *** Events *)

Inductive Event :=
| Message (currentTime : Q) (m : LiveServerMessage)
    (* the session delivers [m]; the output clock reads [currentTime] *)
| Ended (source : nat)
    (* the 'ended' listener of a buffer source *)
| Frame (f : FrameInput)
    (* requestAnimationFrame *)
| TimerFired (now : Q) (id : nat).
    (* the browser runs the callback of timer [id] at wall time [now] *)

Definition dueOf (id : nat) (s : State) : option Q :=
  option_map snd (find (fun t => Nat.eqb (fst t) id) (timers s)).

(** One event, handled to completion.  A timer runs once, not before it is
    due, and not after [clearTimeout]. *)
Definition step (ev : Event) : Handler :=
  match ev with
  | Message currentTime m => onmessage currentTime m
  | Ended source =>
      update (fun s => set_sources (setDelete source (sources s)) s)
  | Frame f => render f
  | TimerFired now id =>
      fun s =>
        match dueOf id s with
        | Some due =>
            if Qle_bool due now then
              (update (clearTimeout id) ;; clearText)%handler s
            else (s, [])
        | None => (s, [])
        end
  end.

Fixpoint run (evs : list Event) : Handler :=
  match evs with
  | [] => skip
  | ev :: rest => (step ev ;; run rest)%handler
  end.

(** *** Observations on runs *)

(** The buffer a message gets scheduled, if any. *)
Definition carriesAudio (m : LiveServerMessage) : option AudioBuffer :=
  match inlineData m with
  | Some base64Audio => decodeDelta base64Audio
  | None => None
  end.

(** Start time and duration of the buffers started, in order. *)
Definition starts (es : list Effect) : list (Q * Q) :=
  flat_map (fun e => match e with
                     | Start _ when d => [(when, d)]
                     | _ => []
                     end) es.

(** Every buffer starts when the one before it ends. *)
Fixpoint contiguousFrom (t : Q) (l : list (Q * Q)) : Prop :=
  match l with
  | [] => True
  | (when, d) :: rest => when = t /\ contiguousFrom (when + d) rest
  end.

Definition contiguous (l : list (Q * Q)) : Prop :=
  match l with
  | [] => True
  | (when, d) :: rest => contiguousFrom (when + d) rest
  end.

Definition total (l : list (Q * Q)) : Q :=
  fold_right (fun p acc => snd p + acc) 0 l.

(** Events of one Turn: no interruption and no grace timer. *)
Definition withinTurn (evs : list Event) : bool :=
  forallb (fun ev => match ev with
                     | Message _ m => negb (interrupted m)
                     | TimerFired _ _ => false
                     | _ => true
                     end) evs.

(** No audio delta of the run resynchronises, except possibly the first one
    when [exempt] is set. *)
Fixpoint steady (exempt : bool) (evs : list Event) (s : State) : bool :=
  match evs with
  | [] => true
  | ev :: rest =>
      let s' := fst (step ev s) in
      match ev with
      | Message currentTime m =>
          match carriesAudio m with
          | Some _ =>
              (exempt || negb (resyncs currentTime s)) && steady false rest s'
          | None => steady exempt rest s'
          end
      | _ => steady exempt rest s'
      end
  end.

Definition carriesEvent (ev : Event) : bool :=
  match ev with
  | Message _ m => match carriesAudio m with Some _ => true | None => false end
  | _ => false
  end.

(** The output clock read by a message handler. *)
Definition timeOf (ev : Event) : Q :=
  match ev with Message currentTime _ => currentTime | _ => 0 end.

(** The buffers decoded from the audio deltas of a run, in arrival order. *)
Definition buffersOf (evs : list Event) : list AudioBuffer :=
  flat_map (fun ev => match ev with
                      | Message _ m =>
                          match carriesAudio m with
                          | Some b => [b]
                          | None => []
                          end
                      | _ => []
                      end) evs.

(** Buffers of durations [ds] played back to back from time [t]: start
    time and duration of each. *)
Fixpoint gapless (t : Q) (ds : list Q) : list (Q * Q) :=
  match ds with
  | [] => []
  | d :: rest => (t, d) :: gapless (t + d) rest
  end.

(** Where the first buffer of a run is started: at the output clock of its
    message when the test of line 358 holds, at [nextStartTime] otherwise. *)
Fixpoint firstStart (evs : list Event) (s : State) : Q :=
  match evs with
  | [] => nextStartTime s
  | ev :: rest =>
      if carriesEvent ev then
        if resyncs (timeOf ev) s then timeOf ev else nextStartTime s
      else firstStart rest s
  end.


(** The [clock.getDelta()] readings of the frames of a run. *)
Definition frameDeltas (evs : list Event) : list Q :=
  flat_map (fun ev => match ev with
                      | Frame f => [clockDelta f]
                      | _ => []
                      end) evs.

(** The volume after frame [f]. *)
Definition frameVolume (f : FrameInput) (s : State) : Q :=
  smoothVolume (uVolume s) (currentVolumeOf (spectrum f))
               (Qmin (clockDelta f) (1 # 10)).

(** The part of the state that only [render] and the timer touch. *)
Definition sameFrameState (s s' : State) : Prop :=
  uVolume s' = uVolume s
  /\ aiWasPlaying s' = aiWasPlaying s
  /\ clearTextTimeout s' = clearTextTimeout s
  /\ timers s' = timers s
  /\ timerCount s' = timerCount s.

(** The caption that shows word [wordIndex] of [ws] as active. *)
Definition captionAt (ws : list string) (wordIndex : Z) : Caption :=
  let chunkIndex := (wordIndex / CHUNK_SIZE)%Z in
  {| words := slice ws (chunkIndex * CHUNK_SIZE) ((chunkIndex + 1) * CHUNK_SIZE);
     activeIndex := Z.rem wordIndex CHUNK_SIZE |}.

Definition keyAt (wordIndex : Z) : string :=
  stateKeyOf (wordIndex / CHUNK_SIZE)%Z (Z.rem wordIndex CHUNK_SIZE).

(** At most one grace timer is pending; it is the one the ref holds, and
    it is pending only while nothing was seen playing. *)
Definition timerInv (s : State) : Prop :=
  match timers s with
  | [] => True
  | [(id, _)] => clearTextTimeout s = Some id /\ aiWasPlaying s = false
  | _ => False
  end.


(** The effects of a run without its logged decode errors. *)
Definition besidesErrors (es : list Effect) : list Effect :=
  filter (fun e => match e with ConsoleError => false | _ => true end) es.


Definition isFrame (ev : Event) : bool :=
  match ev with Frame _ => true | _ => false end.

End Scene.

(** ** Concrete inputs *)
Module Scenarios.
Import Base64 Audio Scene.

Local Open Scope Q_scope.

(** The payload of [n] zero bytes: [n / 2] samples, [n / 48000] seconds. *)
Definition silence (n : N) : string := encode (repeat x00 (N.to_nat n)).

Definition transcript (text : string) : LiveServerMessage :=
  {| outputTranscription := Some text; inlineData := None;
     interrupted := false |}.

Definition audioDelta (payload : string) : LiveServerMessage :=
  {| outputTranscription := None; inlineData := Some payload;
     interrupted := false |}.

Definition frameAt (now : Q) : FrameInput :=
  {| clockDelta := 1 # 60; spectrum := None; outputTime := now;
     wallTime := 1000 * now |}.

(** A loud frame that took a tenth of a second. *)
Definition loudSlowFrame : FrameInput :=
  {| clockDelta := 1 # 10; spectrum := Some (repeat x40 256);
     outputTime := 0; wallTime := 0 |}.

(** Two words and a quarter of a second of audio, a frame, half a second
    more audio before the first buffer has ended, a frame. *)
Definition slowingTurn : list Event :=
  [ Message 1 {| outputTranscription := Some "alpha beta"%string;
                 inlineData := Some (silence 12000);
                 interrupted := false |};
    Frame (frameAt (120 # 100));
    Message (121 # 100) (audioDelta (silence 24000));
    Frame (frameAt (122 # 100)) ].

(** A Turn drains, the grace timer is set at 200 ms; 3.4 s later a short
    audio delta arrives with one more word and plays out; no frame is
    drawn before the timer runs at 3700 ms. *)
Definition graceRace : list Event :=
  [ Message 0 {| outputTranscription := Some "hello there"%string;
                 inlineData := Some (silence 4800);
                 interrupted := false |};
    Frame (frameAt (5 # 100));
    Ended 0;
    Frame (frameAt (2 # 10));
    Message (36 # 10) {| outputTranscription := Some "again"%string;
                         inlineData := Some (silence 2400);
                         interrupted := false |};
    Ended 1;
    TimerFired 3700 1 ].

(** What [silence 4] decodes to: two samples. *)
Definition twoSamples : AudioBuffer :=
  {| channelData := [[0 / 32768; 0 / 32768]]; frameCount := 2;
     sampleRate := 24000 |}.

(** Three buffers, each one arriving before the schedule runs out. *)
Definition steadyTurn : list Event :=
  [ Message 1 (audioDelta (silence 4800));
    Frame (frameAt (105 # 100));
    Message (105 # 100) {| outputTranscription := Some "and"%string;
                           inlineData := Some (silence 2400);
                           interrupted := false |};
    Message (11 # 10) (audioDelta (silence 4800)) ].

(** Two words, two samples of audio, one frame while they play, the end of
    the buffer. *)
Definition shortTurn : list Event :=
  [ Message 0 {| outputTranscription := Some "hello there"%string;
                 inlineData := Some (silence 4);
                 interrupted := false |};
    Frame (frameAt 0);
    Ended 0 ].

Definition bargeIn : LiveServerMessage :=
  {| outputTranscription := None; inlineData := None; interrupted := true |}.

(** The words of the spec scenario, three seconds of audio at clock [t0]. *)
Definition helloTurn (t0 : Q) : list Event :=
  [ Message t0 (transcript "hello");
    Message t0 (transcript "world this");
    Message t0 (transcript "is a test");
    Message t0 (audioDelta (silence 144000)) ].

End Scenarios.

(** ** Microphone capture: [createBlob] *)
Module Capture.
Import Base64 Audio.

Local Open Scope Q_scope.

(** The outbound chunk. *)
Record GenAIBlob := mkBlob {
  data : string;
  mimeType : string
}.

(** A number stored in an [Int16Array]: the fraction is dropped, towards
    zero, and the integer is reduced modulo 2^16 into [-32768, 32767]. *)
Definition toInt16 (x : Q) : Z :=
  signed16 (Z.quot (Qnum x) (Zpos (Qden x)) mod 65536).

Definition byteOfZ (z : Z) : byte :=
  byte_of_ascii (ascii_of_N (Z.to_N (z mod 256))).

(** [new Uint8Array(int16.buffer)]: two bytes per element, low byte first. *)
Definition int16Bytes (int16 : list Z) : list byte :=
  flat_map (fun v => let u := (v mod 65536)%Z in
                     [byteOfZ u; byteOfZ (u / 256)]) int16.

(** The loop [int16[i] = data[i] * 32768]. *)
Definition pcm16 (data : list Q) : list Z :=
  map (fun x => toInt16 (x * 32768)) data.

(** [function createBlob(data: Float32Array): GenAIBlob]. *)
Definition createBlob (data : list Q) : GenAIBlob :=
  let int16 := pcm16 data in
  {| data := encode (int16Bytes int16);
     mimeType := "audio/pcm;rate=16000" |}.

End Capture.

(** ** The caption overlay of the component *)
Module Overlay.
Import Scene.

(** The three looks of a word: [isActive], [isSpoken], neither. *)
Inductive WordStyle := Active | Spoken | Upcoming.

Definition styleOf (i activeIndex : Z) : WordStyle :=
  if (i =? activeIndex)%Z then Active
  else if (i <? activeIndex)%Z then Spoken
  else Upcoming.

(** [kineticText.words.map((word, i) => ...)], from index [i] on. *)
Fixpoint spans (i : Z) (ws : list string) (activeIndex : Z)
  : list (string * WordStyle) :=
  match ws with
  | [] => []
  | word :: rest => (word, styleOf i activeIndex) :: spans (i + 1) rest activeIndex
  end.

(** [kineticText.words.length > 0 && (...)]: nothing is drawn without
    words. *)
Definition overlay (c : Caption) : option (list (string * WordStyle)) :=
  match words c with
  | [] => None
  | ws => Some (spans 0 ws (activeIndex c))
  end.

End Overlay.

(** ** The landing page: [App] *)
Module App.

Record AppState := mkApp {
  hasStarted : bool;
  micError : option string
}.

Definition initialApp : AppState :=
  {| hasStarted := false; micError := None |}.

(** [handleStart], given whether [getUserMedia] resolved. *)
Definition handleStart (granted : bool) (st : AppState) : AppState :=
  if granted then {| hasStarted := true; micError := micError st |}
  else {| hasStarted := hasStarted st;
          micError :=
            Some "Microphone access is required for this experience."%string |}.

(** What [App] renders. *)
Inductive Screen :=
| Landing (error : option string)
| Galaxy.

Definition view (st : AppState) : Screen :=
  if hasStarted st then Galaxy else Landing (micError st).

End App.

(** ** Further observations on runs *)
Module Observations.
Import Base64 Audio Scene.

Local Open Scope Q_scope.

(** No message of the run is an interruption. *)
Definition uninterrupted (evs : list Event) : bool :=
  forallb (fun ev => match ev with
                     | Message _ m => negb (interrupted m)
                     | _ => true
                     end) evs.

(** The output clock readings of the messages of a run. *)
Definition messageClocks (evs : list Event) : list Q :=
  flat_map (fun ev => match ev with
                      | Message currentTime _ => [currentTime]
                      | _ => []
                      end) evs.

(** The transcription texts of the messages of a run, in order. *)
Definition transcripts (evs : list Event) : list string :=
  flat_map (fun ev => match ev with
                      | Message _ m =>
                          match outputTranscription m with
                          | Some text => [text]
                          | None => []
                          end
                      | _ => []
                      end) evs.

Definition notWhiteSpace (c : ascii) : bool := negb (isWhiteSpace c).

(** No buffer starts before time [t] or before the one before it ends. *)
Fixpoint separatedFrom (t : Q) (l : list (Q * Q)) : Prop :=
  match l with
  | [] => True
  | (when, d) :: rest => t <= when /\ separatedFrom (when + d) rest
  end.

(** The live set against the effects so far: it has no duplicate, and
    each of its sources has been created and started and not stopped. *)
Definition liveInv (s : State) (es : list Effect) : Prop :=
  NoDup (sources s)
  /\ (forall h, In h (sources s) ->
                (h < created s)%nat
                /\ (exists w d, In (Start h w d) es)
                /\ ~ In (Stop h) es)
  /\ (forall h, In (Stop h) es -> (h < created s)%nat).

(** A caption is empty and inactive, or it has at most five words, one of
    them active. *)
Definition wellFormed (c : Caption) : Prop :=
  (words c = [] /\ activeIndex c = (-1)%Z)
  \/ ((0 <= activeIndex c < Z.of_nat (List.length (words c)))%Z
      /\ (List.length (words c) <= 5)%nat).

Definition captionsOf (es : list Effect) : list Caption :=
  flat_map (fun e => match e with
                     | SetKineticText c => [c]
                     | _ => []
                     end) es.

(** A handler leaves the caption, or sets it once, to a well-formed one. *)
Definition captionStep (s s' : State) (es : list Effect) : Prop :=
  (kineticText s' = kineticText s /\ captionsOf es = [])
  \/ (exists c, wellFormed c /\ kineticText s' = c /\ captionsOf es = [c]).

Definition statusesOf (es : list Effect) : list string :=
  flat_map (fun e => match e with
                     | SetStatus text => [text]
                     | _ => []
                     end) es.

(** The statuses say speaking and listening in turn; [speaking] tells
    which one comes first. *)
Fixpoint alternating (speaking : bool) (l : list string) : Prop :=
  match l with
  | [] => True
  | text :: rest =>
      text = (if speaking then "AI is speaking..." else "Listening...")%string
      /\ alternating (negb speaking) rest
  end.

Definition isSourceEffect (e : Effect) : bool :=
  match e with Start _ _ _ | Stop _ => true | _ => false end.

(** Line 544 of the cleanup of the effect: the pending timer is
    cancelled.  The rest of the cleanup releases resources that are not
    part of the state. *)
Definition cleanupTimer : Handler :=
  update (fun s => match clearTextTimeout s with
                   | Some id => clearTimeout id s
                   | None => s
                   end).

End Observations.

(* ================================================================= *)
(** * Part II: properties *)

Module Base64Facts.
Import Base64.

Local Ltac Zify.zify_post_hook ::= Z.to_euclidean_division_equations.

(** The five ranges of the alphabet. *)
Ltac alphabet_cases s :=
  unfold alphabet_code;
  destruct (N.ltb_spec s 26);
    [|destruct (N.ltb_spec s 52);
        [|destruct (N.ltb_spec s 62); [|destruct (N.eqb_spec s 62)]]].

Ltac decide_codes :=
  repeat match goal with
  | |- context [(?a <=? ?b)%N] => destruct (N.leb_spec a b)
  | |- context [(?a =? ?b)%N] => destruct (N.eqb_spec a b)
  end; cbn [andb orb]; try lia.

Lemma alphabet_index_code (s : N) :
  (s < 64)%N -> alphabet_index (alphabet_code s) = Some s.
Proof.
  intros Hs. alphabet_cases s; unfold alphabet_index; decide_codes;
    f_equal; lia.
Qed.

Lemma alphabet_code_not_pad (s : N) : alphabet_code s <> pad_code.
Proof. unfold pad_code. alphabet_cases s; lia. Qed.

Lemma alphabet_code_not_space (s : N) :
  is_ascii_whitespace (alphabet_code s) = false.
Proof.
  alphabet_cases s; unfold is_ascii_whitespace; decide_codes; reflexivity.
Qed.

Lemma alphabet_code_small (s : N) : (alphabet_code s < 256)%N.
Proof. alphabet_cases s; lia. Qed.

(** Lists are read three elements at a time. *)
Lemma list_ind3 {A : Type} (P : list A -> Prop) :
  P [] -> (forall a, P [a]) -> (forall a b, P [a; b]) ->
  (forall a b c r, P r -> P (a :: b :: c :: r)) ->
  forall l, P l.
Proof.
  intros H0 H1 H2 H3.
  fix IH 1. intros [|a [|b [|c r]]];
    [apply H0 | apply H1 | apply H2 | apply H3, IH].
Qed.

Lemma padding_cons3 (a b c : N) (r : list N) :
  padding (a :: b :: c :: r) = padding r.
Proof.
  unfold padding. cbn [List.length].
  replace (S (S (S (List.length r)))) with (List.length r + 1 * 3)%nat by lia.
  now rewrite Nat.Div0.mod_add.
Qed.

Lemma btoa_codes_split (l : list N) :
  btoa_codes l = map alphabet_code (sextets l) ++ padding l.
Proof.
  induction l as [|a|a b|a b c r IH] using list_ind3; try reflexivity.
  rewrite padding_cons3. cbn [btoa_codes sextets map app]. now rewrite IH.
Qed.

Lemma sextets_small (l : list N) :
  Forall (fun a => a < 256)%N l -> Forall (fun s => s < 64)%N (sextets l).
Proof.
  induction l as [|a|a b|a b c r IH] using list_ind3; intros H; cbn [sextets].
  - constructor.
  - inversion_clear H. repeat constructor; lia.
  - inversion_clear H as [|? ? Ha H']. inversion_clear H'.
    repeat constructor; lia.
  - inversion_clear H as [|? ? Ha H']. inversion_clear H' as [|? ? Hb H''].
    inversion_clear H'' as [|? ? Hc Hr].
    repeat (constructor; [lia|]). auto.
Qed.

(** The number of sextets is never one more than a multiple of four. *)
Lemma sextets_length (l : list N) :
  (List.length (sextets l) mod 4 =? 1)%nat = false.
Proof.
  induction l as [|a|a b|a b c r IH] using list_ind3; try reflexivity.
  cbn [sextets List.length].
  replace (S (S (S (S (List.length (sextets r))))))
    with (List.length (sextets r) + 1 * 4)%nat by lia.
  now rewrite Nat.Div0.mod_add.
Qed.

Lemma btoa_codes_length (l : list N) :
  (List.length (btoa_codes l) mod 4 =? 0)%nat = true.
Proof.
  induction l as [|a|a b|a b c r IH] using list_ind3; try reflexivity.
  cbn [btoa_codes List.length].
  replace (S (S (S (S (List.length (btoa_codes r))))))
    with (List.length (btoa_codes r) + 1 * 4)%nat by lia.
  now rewrite Nat.Div0.mod_add.
Qed.

Lemma bytes_of_sextets_sextets (l : list N) :
  Forall (fun a => a < 256)%N l -> bytes_of_sextets (sextets l) = l.
Proof.
  induction l as [|a|a b|a b c r IH] using list_ind3; intros H;
    cbn [sextets bytes_of_sextets].
  - reflexivity.
  - inversion_clear H. f_equal. lia.
  - inversion_clear H as [|? ? Ha H']. inversion_clear H'.
    f_equal; [lia|]. f_equal. lia.
  - inversion_clear H as [|? ? Ha H']. inversion_clear H' as [|? ? Hb H''].
    inversion_clear H'' as [|? ? Hc Hr].
    rewrite (IH Hr). f_equal; [lia|]. f_equal; [lia|]. f_equal. lia.
Qed.

Lemma sextets_of_codes_alphabet (ss : list N) :
  Forall (fun s => s < 64)%N ss ->
  sextets_of_codes (map alphabet_code ss) = Some ss.
Proof.
  induction 1 as [|s ss Hs _ IH]; [reflexivity|].
  cbn [map sextets_of_codes]. now rewrite (alphabet_index_code s Hs), IH.
Qed.

Lemma btoa_codes_no_space (l : list N) :
  filter (fun c => negb (is_ascii_whitespace c)) (btoa_codes l) = btoa_codes l.
Proof.
  rewrite btoa_codes_split, filter_app. f_equal.
  - induction (sextets l) as [|s ss IH]; [reflexivity|].
    cbn [map filter]. now rewrite alphabet_code_not_space, IH.
  - unfold padding. now destruct (List.length l mod 3)%nat as [|[|[|?]]].
Qed.

Lemma rev'_rev {A : Type} (l : list A) : rev' l = rev l.
Proof. unfold rev'. now rewrite <- rev_alt. Qed.

(** The padding is removed from output of [btoa], and nothing else. *)
Lemma strip_padding_body (body pad : list N) :
  (List.length (body ++ pad) mod 4 =? 0)%nat = true ->
  Forall (fun c => c <> pad_code) body ->
  pad = [] \/ (pad = [pad_code] /\ body <> [])
  \/ pad = [pad_code; pad_code] ->
  strip_padding (body ++ pad) = body.
Proof.
  intros Hlen Hbody Hpad. unfold strip_padding. rewrite Hlen.
  rewrite rev'_rev, rev_app_distr.
  assert (Hlast : forall p r, rev body = p :: r -> (p =? pad_code)%N = false).
  { intros p r E. apply N.eqb_neq.
    rewrite Forall_forall in Hbody. apply Hbody.
    apply in_rev. rewrite E. now left. }
  destruct Hpad as [-> | [[-> Hne] | ->]]; cbn [rev app].
  - rewrite app_nil_r.
    destruct (rev body) as [|p [|q r]] eqn:E.
    + apply (f_equal (@rev N)) in E. rewrite rev_involutive in E.
      now rewrite E.
    + now rewrite (Hlast p [] eq_refl).
    + now rewrite (Hlast p (q :: r) eq_refl).
  - destruct (rev body) as [|q r] eqn:E.
    + apply (f_equal (@rev N)) in E. rewrite rev_involutive in E.
      now elim Hne.
    + rewrite N.eqb_refl, (Hlast q r eq_refl), rev'_rev, <- E.
      apply rev_involutive.
  - rewrite !N.eqb_refl, rev'_rev. apply rev_involutive.
Qed.

Lemma sextets_nonempty (l : list N) : l <> [] -> sextets l <> [].
Proof. destruct l as [|a [|b [|c r]]]; cbn [sextets]; congruence. Qed.

Lemma strip_padding_btoa (l : list N) :
  strip_padding (btoa_codes l) = map alphabet_code (sextets l).
Proof.
  pose proof (btoa_codes_length l) as Hlen.
  rewrite btoa_codes_split in *.
  apply strip_padding_body; [assumption| |].
  - apply Forall_forall. intros c Hc. apply in_map_iff in Hc.
    destruct Hc as [s [<- _]]. apply alphabet_code_not_pad.
  - unfold padding.
    destruct (List.length l mod 3)%nat as [|[|[|?]]] eqn:E; auto.
    right; left. split; [reflexivity|].
    intros Hnil. apply map_eq_nil in Hnil.
    destruct l; [discriminate E|]. revert Hnil.
    now apply sextets_nonempty.
Qed.

(** [atob] undoes [btoa], on character codes. *)
Lemma atob_btoa_codes (l : list N) :
  Forall (fun a => a < 256)%N l -> atob_codes (btoa_codes l) = Some l.
Proof.
  intros H. unfold atob_codes.
  rewrite btoa_codes_no_space, strip_padding_btoa, length_map, sextets_length.
  rewrite sextets_of_codes_alphabet by now apply sextets_small.
  cbn [option_map]. now rewrite bytes_of_sextets_sextets.
Qed.

Lemma btoa_codes_small (l : list N) :
  Forall (fun c => c < 256)%N (btoa_codes l).
Proof.
  rewrite btoa_codes_split. apply Forall_app. split.
  - apply Forall_forall. intros c Hc. apply in_map_iff in Hc.
    destruct Hc as [s [<- _]]. apply alphabet_code_small.
  - unfold padding, pad_code.
    destruct (List.length l mod 3)%nat as [|[|[|?]]];
      repeat constructor.
Qed.

Lemma codes_of_string_small (s : string) :
  Forall (fun c => c < 256)%N (codes_of_string s).
Proof.
  unfold codes_of_string. apply Forall_forall. intros c Hc.
  apply in_map_iff in Hc. destruct Hc as [a [<- _]]. apply N_ascii_bounded.
Qed.

Lemma codes_of_string_of_codes (l : list N) :
  Forall (fun c => c < 256)%N l -> codes_of_string (string_of_codes l) = l.
Proof.
  unfold codes_of_string, string_of_codes.
  rewrite list_ascii_of_string_of_list_ascii, map_map.
  induction 1 as [|c r Hc _ IH]; [reflexivity|].
  cbn [map]. now rewrite IH, N_ascii_embedding.
Qed.

Lemma string_of_codes_of_string (s : string) :
  string_of_codes (codes_of_string s) = s.
Proof.
  unfold codes_of_string, string_of_codes. rewrite map_map.
  rewrite <- (string_of_list_ascii_of_string s) at 2. f_equal.
  induction (list_ascii_of_string s) as [|a r IH]; [reflexivity|].
  cbn [map]. now rewrite IH, ascii_N_embedding.
Qed.

(** [atob(btoa(binary))] is [binary]. *)
Lemma atob_btoa (binary : string) : atob (btoa binary) = Some binary.
Proof.
  unfold atob, btoa.
  rewrite codes_of_string_of_codes by apply btoa_codes_small.
  rewrite atob_btoa_codes by apply codes_of_string_small.
  cbn [option_map]. now rewrite string_of_codes_of_string.
Qed.

Lemma fromCharCode_app (l1 l2 : list byte) :
  fromCharCode (l1 ++ l2) = (fromCharCode l1 ++ fromCharCode l2)%string.
Proof.
  unfold fromCharCode, string_of_list_byte.
  induction l1 as [|b r IH]; [reflexivity|].
  cbn [map app string_of_list_ascii String.append]. now rewrite <- IH.
Qed.

Lemma append_empty (s : string) : (s ++ "")%string = s.
Proof. induction s as [|a s IH]; cbn; [reflexivity|now rewrite IH]. Qed.

Lemma append_assoc (s t u : string) :
  ((s ++ t) ++ u = s ++ (t ++ u))%string.
Proof. induction s as [|a s IH]; cbn; [reflexivity|now rewrite IH]. Qed.

(** With enough fuel the loop appends every byte from position [i] on,
    whatever the chunk size. *)
Lemma encode_loop_all (size : nat) (bytes : list byte) :
  (0 < size)%nat ->
  forall fuel i binary,
    (List.length bytes <= i + fuel * size)%nat ->
    encode_loop size fuel bytes i binary
    = (binary ++ fromCharCode (skipn i bytes))%string.
Proof.
  intros Hsize. induction fuel as [|fuel IH]; intros i binary Hfuel.
  - cbn [encode_loop]. rewrite skipn_all2 by lia.
    symmetry. apply append_empty.
  - cbn [encode_loop]. destruct (Nat.ltb_spec i (List.length bytes)) as [Hi|Hi].
    + rewrite IH by lia. rewrite append_assoc. f_equal.
      rewrite <- fromCharCode_app. f_equal. unfold subarray.
      replace (i + size - i)%nat with size by lia.
      rewrite Nat.add_comm, <- skipn_skipn. apply firstn_skipn.
    + rewrite skipn_all2 by lia. symmetry. apply append_empty.
Qed.

Lemma encode_binary (bytes : list byte) :
  encode_loop chunkSize (List.length bytes) bytes 0 EmptyString
  = fromCharCode bytes.
Proof.
  assert (Hc : (0 < chunkSize)%nat) by (unfold chunkSize; lia).
  rewrite (encode_loop_all chunkSize bytes Hc) by nia.
  reflexivity.
Qed.

(** The test vectors of RFC 4648, section 10, and some inputs that the
    decoder refuses. *)
Example btoa_f : btoa "f" = "Zg=="%string.
Proof. reflexivity. Qed.

Example btoa_fo : btoa "fo" = "Zm8="%string.
Proof. reflexivity. Qed.

Example btoa_foobar : btoa "foobar" = "Zm9vYmFy"%string.
Proof. reflexivity. Qed.

Example atob_foobar : atob "Zm9vYmFy" = Some "foobar"%string.
Proof. reflexivity. Qed.

Example atob_spaces_no_padding : atob " Zm 9v Yg" = Some "foob"%string.
Proof. reflexivity. Qed.

Example atob_bad_length : atob "Zm9vY" = None.
Proof. reflexivity. Qed.

Example atob_bad_character : atob "Zm9v!mFy" = None.
Proof. reflexivity. Qed.

Example encode_bytes : encode [x00; x01; xff; x10] = "AAH/EA=="%string.
Proof. reflexivity. Qed.

(** C10: the base64 helpers are mutually inverse on bytes: decoding the
    encoding of any byte array gives the array back, whatever its length is
    with respect to the 8192-byte chunks of [encode]. *)
Theorem decode_encode (bytes : list byte) :
  decode (encode bytes) = Some bytes.
Proof.
  unfold decode, encode. rewrite encode_binary, atob_btoa.
  unfold fromCharCode. now rewrite list_byte_of_string_of_list_byte.
Qed.

End Base64Facts.

Module SceneFacts.
Import Base64 Audio Scene Scenarios.

Local Open Scope Q_scope.

(** ** The model on small inputs *)

Example newWordsOf_spaces :
  newWordsOf "  world   this " = ["world"; "this"]%string.
Proof. reflexivity. Qed.

Example newWordsOf_blank : newWordsOf "   " = [].
Proof. reflexivity. Qed.

Example decodeDelta_two_samples : decodeDelta (silence 4) = Some twoSamples.
Proof. reflexivity. Qed.

Example decodeDelta_odd_length : decodeDelta "AA==" = None.
Proof. reflexivity. Qed.

Example decodeDelta_no_frame : decodeDelta " " = None.
Proof. reflexivity. Qed.

Example stateKeyOf_example : stateKeyOf 12 3 = "12-3"%string.
Proof. reflexivity. Qed.

(** ** Numbers *)

Lemma Qltb_lt (x y : Q) : Qltb x y = true <-> x < y.
Proof.
  unfold Qltb. rewrite negb_true_iff. split.
  - intros H. apply Qnot_le_lt. intros Hle.
    apply Qle_bool_iff in Hle. congruence.
  - intros H. destruct (Qle_bool y x) eqn:E; [|reflexivity].
    apply Qle_bool_iff in E. now apply Qlt_not_le in H.
Qed.

Lemma Qltb_ge (x y : Q) : Qltb x y = false <-> y <= x.
Proof.
  unfold Qltb. rewrite negb_false_iff. apply Qle_bool_iff.
Qed.

Lemma clamp_range (lo hi x : Q) : lo <= hi -> lo <= Qmin (Qmax x lo) hi <= hi.
Proof.
  intros H. split.
  - apply Q.min_glb; [apply Q.le_max_r | assumption].
  - apply Q.le_min_r.
Qed.

(** ** Caption pacing *)

Lemma smoothedWps_bounds (wordCount : nat) (audioDuration : Q) :
  2 <= smoothedWps wordCount audioDuration <= 6.
Proof. unfold smoothedWps. apply clamp_range. discriminate. Qed.

(** C5: for every word count and every accumulated audio duration, zero
    and extreme ratios included, the pacing rate lies within [2, 6]. *)
Theorem wordsPerSecond_clamped (wordCount : nat) (audioDuration : Q) :
  2 <= smoothedWps wordCount audioDuration <= 6.
Proof. apply smoothedWps_bounds. Qed.

Lemma floor_pos (x : Q) : 0 <= x -> (0 <= Qfloor x)%Z.
Proof.
  intros H. change 0%Z with (Qfloor (inject_Z 0)).
  now apply Qfloor_resp_le.
Qed.

Lemma elapsed_pos (x d : Q) : 0 <= Qmax 0 (Qmin x d).
Proof. apply Q.le_max_l. Qed.

Lemma activeWordAbsolute_range (s : State) (now : Q) :
  (0 < List.length (turnWords s))%nat ->
  (0 <= activeWordAbsolute s now
     <= Z.of_nat (List.length (turnWords s)) - 1)%Z.
Proof.
  intros Hn. unfold activeWordAbsolute. split.
  - apply Z.min_glb; [|lia]. apply floor_pos.
    apply Qmult_le_0_compat; [apply elapsed_pos|].
    pose proof (smoothedWps_bounds (List.length (turnWords s))
                  (turnAudioDuration s)) as [H _].
    apply Qle_trans with 2; [discriminate | exact H].
  - apply Z.le_min_r.
Qed.

Lemma floor_tenth_pos (d : Q) : 0 < Qmax (1 # 10) d.
Proof.
  apply Qlt_le_trans with (1 # 10); [reflexivity | apply Q.le_max_l].
Qed.

(** More words over the same duration never slow the pace. *)
Lemma smoothedWps_mono (n1 n2 : nat) (d1 d2 : Q) :
  (n1 <= n2)%nat -> d1 == d2 -> smoothedWps n1 d1 <= smoothedWps n2 d2.
Proof.
  intros Hn Hd. unfold smoothedWps.
  apply Q.min_le_compat; [|apply Qle_refl].
  apply Q.max_le_compat; [|apply Qle_refl].
  assert (Hm : Qmax (1 # 10) d1 == Qmax (1 # 10) d2).
  { apply Qle_antisym; apply Q.max_le_compat; try apply Qle_refl;
      rewrite Hd; apply Qle_refl. }
  rewrite Hm. unfold Qdiv. apply Qmult_le_compat_r.
  - rewrite <- Zle_Qle. lia.
  - apply Qinv_le_0_compat, Qlt_le_weak, floor_tenth_pos.
Qed.

(** The index grows with the time elapsed in the Turn and with the number
    of words, for one accumulated duration. *)
Lemma activeWordAbsolute_mono (s1 s2 : State) (t1 t2 : Q) :
  t1 - turnStartTime s1 <= t2 - turnStartTime s2 ->
  turnAudioDuration s2 == turnAudioDuration s1 ->
  (List.length (turnWords s1) <= List.length (turnWords s2))%nat ->
  (activeWordAbsolute s1 t1 <= activeWordAbsolute s2 t2)%Z.
Proof.
  intros Ht Hd Hn. unfold activeWordAbsolute.
  apply Z.min_le_compat; [|lia].
  apply Qfloor_resp_le.
  set (e1 := Qmax 0 (Qmin (t1 - turnStartTime s1) (turnAudioDuration s1))).
  set (e2 := Qmax 0 (Qmin (t2 - turnStartTime s2) (turnAudioDuration s2))).
  set (w1 := smoothedWps _ (turnAudioDuration s1)).
  set (w2 := smoothedWps _ (turnAudioDuration s2)).
  assert (He : e1 <= e2).
  { apply Q.max_le_compat; [apply Qle_refl|].
    apply Q.min_le_compat; [exact Ht | rewrite Hd; apply Qle_refl]. }
  assert (Hw : w1 <= w2) by (apply smoothedWps_mono; [lia | now symmetry]).
  assert (H1 : 0 <= e1) by apply elapsed_pos.
  assert (H2 : 2 <= w1) by apply smoothedWps_bounds.
  nra.
Qed.

(** It depends on the numbers only, not on how they are written. *)
Lemma activeWordAbsolute_ext (s1 s2 : State) (t1 t2 : Q) :
  t1 - turnStartTime s1 == t2 - turnStartTime s2 ->
  turnAudioDuration s1 == turnAudioDuration s2 ->
  List.length (turnWords s1) = List.length (turnWords s2) ->
  activeWordAbsolute s1 t1 = activeWordAbsolute s2 t2.
Proof.
  intros Ht Hd Hn. apply Z.le_antisymm; apply activeWordAbsolute_mono;
    try (rewrite Ht; apply Qle_refl); try (rewrite Hd; reflexivity);
    try (rewrite Hn; apply Nat.le_refl).
Qed.

Lemma smoothedWps_ext (n : nat) (d1 d2 : Q) :
  d1 == d2 -> smoothedWps n d1 == smoothedWps n d2.
Proof.
  intros Hd. apply Qle_antisym; apply smoothedWps_mono;
    try apply Nat.le_refl; [assumption | now symmetry].
Qed.

(** ** Handlers *)

Lemma fst_andThen (h k : Handler) (s : State) :
  fst (andThen h k s) = fst (k (fst (h s))).
Proof.
  unfold andThen. destruct (h s) as [s1 e1]. cbn [fst].
  now destruct (k s1).
Qed.

Lemma snd_andThen (h k : Handler) (s : State) :
  snd (andThen h k s) = snd (h s) ++ snd (k (fst (h s))).
Proof.
  unfold andThen. destruct (h s) as [s1 e1]. cbn [fst snd].
  now destruct (k s1).
Qed.

Lemma fst_run_cons (ev : Event) (rest : list Event) (s : State) :
  fst (run (ev :: rest) s) = fst (run rest (fst (step ev s))).
Proof. apply fst_andThen. Qed.

Lemma snd_run_cons (ev : Event) (rest : list Event) (s : State) :
  snd (run (ev :: rest) s)
  = snd (step ev s) ++ snd (run rest (fst (step ev s))).
Proof. apply snd_andThen. Qed.

Lemma fst_run_app (evs1 evs2 : list Event) (s : State) :
  fst (run (evs1 ++ evs2) s) = fst (run evs2 (fst (run evs1 s))).
Proof.
  revert s. induction evs1 as [|ev evs1 IH]; intros s; [reflexivity|].
  cbn [app]. now rewrite !fst_run_cons, IH.
Qed.

Lemma snd_run_app (evs1 evs2 : list Event) (s : State) :
  snd (run (evs1 ++ evs2) s)
  = snd (run evs1 s) ++ snd (run evs2 (fst (run evs1 s))).
Proof.
  revert s. induction evs1 as [|ev evs1 IH]; intros s; [reflexivity|].
  cbn [app]. now rewrite !snd_run_cons, fst_run_cons, IH, app_assoc.
Qed.

(** Unfolding of the handlers that have no loop, and case analysis on the
    tests they make. *)
Ltac open_handlers :=
  cbv beta iota zeta delta
    [step onmessage pushWords playAudio interrupt render paceCaption showWord
     risingEdge fallingEdge clearText setKineticText schedule
     andThen update perform skip].

Ltac fields :=
  cbn [fst snd app
       turnWords turnStartTime turnAudioDuration nextStartTime
       previousStateKey sources aiWasPlaying clearTextTimeout kineticText
       uVolume created timers timerCount
       set_turnWords set_turnStartTime set_turnAudioDuration
       set_nextStartTime set_previousStateKey set_sources set_aiWasPlaying
       set_clearTextTimeout set_kineticText set_uVolume set_created
       set_timers set_timerCount clearTimeout setClearTimeout] in *.


Ltac break_tests :=
  repeat (match goal with
          | |- context [if ?c then _ else _] => destruct c eqn:?
          | |- context [match ?x with _ => _ end] => destruct x eqn:?
          end; cbv beta iota zeta).

Ltac handler_cases := open_handlers; break_tests; fields.

(** What an animation frame leaves alone. *)
Lemma render_schedule (f : FrameInput) (s : State) :
  let s' := fst (render f s) in
  nextStartTime s' = nextStartTime s
  /\ turnStartTime s' = turnStartTime s
  /\ turnAudioDuration s' = turnAudioDuration s
  /\ turnWords s' = turnWords s
  /\ sources s' = sources s
  /\ created s' = created s
  /\ starts (snd (render f s)) = [].
Proof. handler_cases; repeat split; reflexivity. Qed.

(** ** Scheduling *)

Lemma decodeDelta_empty : decodeDelta EmptyString = None.
Proof. reflexivity. Qed.

(** A message that carries a buffer schedules it after the resync test. *)
Lemma playAudio_carries (t : Q) (m : LiveServerMessage) (b : AudioBuffer) :
  carriesAudio m = Some b ->
  forall s, playAudio t m s = schedule b (resync t s).
Proof.
  unfold carriesAudio, playAudio. intros H s.
  destruct (inlineData m) as [[|c p]|]; try discriminate.
  - now rewrite H.
Qed.

(** A message that carries none leaves the state alone, and at most logs
    an error. *)
Lemma playAudio_silent (t : Q) (m : LiveServerMessage) :
  carriesAudio m = None ->
  forall s, fst (playAudio t m s) = s
            /\ (snd (playAudio t m s) = []
                \/ snd (playAudio t m s) = [ConsoleError]).
Proof.
  unfold carriesAudio, playAudio. intros H s.
  destruct (inlineData m) as [[|c p]|]; auto.
  rewrite H. auto.
Qed.

Lemma pushWords_only_words (m : LiveServerMessage) (s : State) :
  exists ws, pushWords m s = (set_turnWords (turnWords s ++ ws) s, []).
Proof.
  unfold pushWords. destruct (outputTranscription m) as [text|].
  - now exists (newWordsOf text).
  - exists []. unfold skip. rewrite app_nil_r. now destruct s.
Qed.

Lemma onmessage_uninterrupted (t : Q) (m : LiveServerMessage) (s : State) :
  interrupted m = false ->
  onmessage t m s = playAudio t m (fst (pushWords m s)).
Proof.
  intros H. unfold onmessage, interrupt. rewrite H.
  destruct (pushWords_only_words m s) as [ws E].
  unfold andThen at 1. rewrite E. cbn [fst].
  unfold andThen, skip. destruct (playAudio t m _) as [s1 e1].
  cbn [app]. now rewrite app_nil_r.
Qed.

Lemma pushWords_schedule (m : LiveServerMessage) (s : State) :
  let s' := fst (pushWords m s) in
  nextStartTime s' = nextStartTime s
  /\ turnStartTime s' = turnStartTime s
  /\ turnAudioDuration s' = turnAudioDuration s
  /\ sources s' = sources s
  /\ created s' = created s.
Proof.
  destruct (pushWords_only_words m s) as [ws E]. rewrite E.
  repeat split; reflexivity.
Qed.

Lemma resyncs_pushWords (t : Q) (m : LiveServerMessage) (s : State) :
  resyncs t (fst (pushWords m s)) = resyncs t s.
Proof.
  unfold resyncs. now destruct (pushWords_schedule m s) as [-> _].
Qed.

Lemma resync_steady (t : Q) (s : State) :
  resyncs t s = false -> resync t s = s.
Proof. unfold resync. now intros ->. Qed.

Lemma starts_app (es1 es2 : list Effect) :
  starts (es1 ++ es2) = starts es1 ++ starts es2.
Proof. apply flat_map_app. Qed.

(** Where a buffer scheduled at clock [t] starts. *)
Lemma resync_nextStartTime (t : Q) (s : State) :
  nextStartTime (resync t s) = if resyncs t s then t else nextStartTime s.
Proof. unfold resync. break_tests; reflexivity. Qed.

Lemma resync_turnAudioDuration (t : Q) (s : State) :
  turnAudioDuration (resync t s) = turnAudioDuration s.
Proof. unfold resync. break_tests; reflexivity. Qed.

(** An event of a Turn that carries a buffer starts it where the schedule
    stands, and moves the schedule and the accumulated duration by its
    length. *)
Lemma step_carrying (ev : Event) (s : State) :
  withinTurn [ev] = true ->
  carriesEvent ev = true ->
  let s' := fst (step ev s) in
  let when := if resyncs (timeOf ev) s then timeOf ev else nextStartTime s in
  exists d,
    starts (snd (step ev s)) = [(when, d)]
    /\ nextStartTime s' = when + d
    /\ turnAudioDuration s' = turnAudioDuration s + d.
Proof.
  intros Hq Hc. destruct ev as [t m|h|f|now id]; try discriminate.
  cbn [step carriesEvent timeOf] in *.
  cbn in Hq. rewrite andb_true_r, negb_true_iff in Hq.
  rewrite (onmessage_uninterrupted t m s Hq).
  destruct (pushWords_schedule m s) as (Hn & _ & Hd & _).
  destruct (carriesAudio m) as [b|] eqn:E; [|discriminate].
  rewrite (playAudio_carries t m b E). exists (duration b).
  unfold schedule. fields.
  now rewrite resync_nextStartTime, resync_turnAudioDuration,
    resyncs_pushWords, Hn, Hd.
Qed.

(** Any other event of a Turn starts nothing and leaves both. *)
Lemma step_not_carrying (ev : Event) (s : State) :
  withinTurn [ev] = true ->
  carriesEvent ev = false ->
  let s' := fst (step ev s) in
  starts (snd (step ev s)) = []
  /\ nextStartTime s' = nextStartTime s
  /\ turnAudioDuration s' = turnAudioDuration s.
Proof.
  intros Hq Hc. destruct ev as [t m|h|f|now id]; cbn [step carriesEvent] in *.
  - cbn in Hq. rewrite andb_true_r, negb_true_iff in Hq.
    rewrite (onmessage_uninterrupted t m s Hq).
    destruct (pushWords_schedule m s) as (Hn & _ & Hd & _).
    destruct (carriesAudio m) as [b|] eqn:E; [discriminate|].
    destruct (playAudio_silent t m E (fst (pushWords m s))) as [-> Hl].
    destruct Hl as [-> | ->]; auto.
  - auto.
  - destruct (render_schedule f s) as (Hn & _ & Hd & _ & _ & _ & Hl). auto.
  - discriminate Hq.
Qed.

(** It may append words, and leaves the start of the Turn. *)
Lemma step_not_carrying_words (ev : Event) (s : State) :
  withinTurn [ev] = true ->
  carriesEvent ev = false ->
  let s' := fst (step ev s) in
  turnStartTime s' = turnStartTime s
  /\ exists ws, turnWords s' = turnWords s ++ ws.
Proof.
  intros Hq Hc. destruct ev as [t m|h|f|now id]; cbn [step carriesEvent] in *.
  - cbn in Hq. rewrite andb_true_r, negb_true_iff in Hq.
    rewrite (onmessage_uninterrupted t m s Hq).
    destruct (carriesAudio m) as [b|] eqn:E; [discriminate|].
    destruct (playAudio_silent t m E (fst (pushWords m s))) as [-> _].
    destruct (pushWords_only_words m s) as [ws ->]. split; [reflexivity|].
    now exists ws.
  - split; [reflexivity|]. exists []. cbn. now rewrite app_nil_r.
  - destruct (render_schedule f s) as (_ & Ht & _ & Hw & _).
    split; [exact Ht|]. exists []. now rewrite app_nil_r.
  - discriminate Hq.
Qed.

Lemma withinTurn_cons (ev : Event) (rest : list Event) :
  withinTurn (ev :: rest) = true ->
  withinTurn [ev] = true /\ withinTurn rest = true.
Proof.
  unfold withinTurn. cbn [forallb]. rewrite andb_true_r.
  apply andb_true_iff.
Qed.

Lemma steady_cons (exempt : bool) (ev : Event) (rest : list Event)
    (s : State) :
  steady exempt (ev :: rest) s
  = if carriesEvent ev then
      (exempt || negb (resyncs (timeOf ev) s))
      && steady false rest (fst (step ev s))
    else steady exempt rest (fst (step ev s)).
Proof.
  destruct ev as [t m|h|f|now id]; cbn [steady carriesEvent]; try reflexivity.
  now destruct (carriesAudio m).
Qed.

(** Once the schedule stands at [nextStartTime], a Turn without resync
    extends it contiguously. *)
Lemma run_steady (evs : list Event) :
  forall s,
    withinTurn evs = true ->
    steady false evs s = true ->
    contiguousFrom (nextStartTime s) (starts (snd (run evs s)))
    /\ turnAudioDuration (fst (run evs s))
       == turnAudioDuration s + total (starts (snd (run evs s))).
Proof.
  induction evs as [|ev rest IH]; intros s Hq Hs.
  - cbn. split; [exact I | lra].
  - apply withinTurn_cons in Hq. destruct Hq as [Hq1 Hq2].
    rewrite steady_cons in Hs.
    rewrite fst_run_cons, snd_run_cons, starts_app.
    destruct (carriesEvent ev) eqn:Hc.
    + cbn [orb] in Hs. apply andb_true_iff in Hs. destruct Hs as [Hr Hs].
      apply negb_true_iff in Hr.
      destruct (step_carrying ev s Hq1 Hc) as (d & -> & Hn & Hd).
      rewrite Hr in *.
      destruct (IH _ Hq2 Hs) as [Hc' Ht]. rewrite Hn in Hc'.
      cbn [app contiguousFrom total fold_right snd]. split; [auto|].
      rewrite Ht, Hd. fold (total (starts (snd (run rest (fst (step ev s)))))).
      lra.
    + destruct (step_not_carrying ev s Hq1 Hc) as (-> & Hn & Hd).
      destruct (IH _ Hq2 Hs) as [Hc' Ht]. rewrite Hn in Hc'.
      cbn [app]. split; [exact Hc'|]. now rewrite Ht, Hd.
Qed.

(** The same with the buffer named: what is started has the duration of
    the buffer decoded from the message, and that duration is what the
    schedule and the accumulated duration move by. *)
Lemma step_carrying_buffer (ev : Event) (s : State) :
  withinTurn [ev] = true ->
  carriesEvent ev = true ->
  let s' := fst (step ev s) in
  let when := if resyncs (timeOf ev) s then timeOf ev else nextStartTime s in
  exists b,
    buffersOf [ev] = [b]
    /\ starts (snd (step ev s)) = [(when, duration b)]
    /\ nextStartTime s' = when + duration b
    /\ turnAudioDuration s' = turnAudioDuration s + duration b.
Proof.
  intros Hq Hc. destruct ev as [t m|h|f|now id]; try discriminate.
  cbn [step carriesEvent timeOf buffersOf flat_map] in *.
  cbn in Hq. rewrite andb_true_r, negb_true_iff in Hq.
  rewrite (onmessage_uninterrupted t m s Hq).
  destruct (pushWords_schedule m s) as (Hn & _ & Hd & _).
  destruct (carriesAudio m) as [b|] eqn:E; [|discriminate].
  rewrite (playAudio_carries t m b E). exists b.
  split; [reflexivity|].
  unfold schedule. fields.
  now rewrite resync_nextStartTime, resync_turnAudioDuration,
    resyncs_pushWords, Hn, Hd.
Qed.

Lemma buffersOf_not_carrying (ev : Event) :
  carriesEvent ev = false -> buffersOf [ev] = [].
Proof.
  destruct ev as [t m|h|f|now id]; cbn; try reflexivity.
  now destruct (carriesAudio m).
Qed.

Lemma buffersOf_cons (ev : Event) (rest : list Event) :
  buffersOf (ev :: rest) = buffersOf [ev] ++ buffersOf rest.
Proof. unfold buffersOf. cbn [flat_map]. now rewrite app_nil_r. Qed.

Lemma firstStart_same (evs : list Event) (s s' : State) :
  nextStartTime s' = nextStartTime s -> firstStart evs s' = firstStart evs s.
Proof.
  intros H. induction evs as [|ev rest IH]; cbn [firstStart]; [exact H|].
  unfold resyncs. now rewrite H, IH.
Qed.

Lemma gapless_contiguousFrom (ds : list Q) :
  forall t, contiguousFrom t (gapless t ds).
Proof.
  induction ds as [|d rest IH]; intros t; cbn; [exact I|].
  split; [reflexivity | apply IH].
Qed.

(** Once the schedule stands at [nextStartTime], a Turn without resync
    plays its buffers back to back from there. *)
Lemma run_gapless (evs : list Event) :
  forall s,
    withinTurn evs = true ->
    steady false evs s = true ->
    let ds := map duration (buffersOf evs) in
    starts (snd (run evs s)) = gapless (nextStartTime s) ds
    /\ turnAudioDuration (fst (run evs s))
       = fold_left Qplus ds (turnAudioDuration s)
    /\ nextStartTime (fst (run evs s)) = fold_left Qplus ds (nextStartTime s).
Proof.
  induction evs as [|ev rest IH]; intros s Hq Hs; cbv zeta.
  - cbn. repeat split.
  - apply withinTurn_cons in Hq. destruct Hq as [Hq1 Hq2].
    rewrite steady_cons in Hs.
    rewrite fst_run_cons, snd_run_cons, starts_app, buffersOf_cons, map_app.
    destruct (carriesEvent ev) eqn:Hc.
    + cbn [orb] in Hs. apply andb_true_iff in Hs. destruct Hs as [Hr Hs].
      apply negb_true_iff in Hr.
      destruct (step_carrying_buffer ev s Hq1 Hc) as (b & -> & -> & Hn & Hd).
      rewrite Hr in Hn |- *.
      destruct (IH _ Hq2 Hs) as (H1 & H2 & H3).
      rewrite Hn in H1, H3. rewrite Hd in H2.
      cbn [map app gapless fold_left]. now rewrite H1, H2, H3.
    + destruct (step_not_carrying ev s Hq1 Hc) as (-> & Hn & Hd).
      rewrite (buffersOf_not_carrying ev Hc).
      destruct (IH _ Hq2 Hs) as (H1 & H2 & H3).
      rewrite Hn in H1, H3. rewrite Hd in H2.
      cbn [map app]. now rewrite H1, H2, H3.
Qed.

(** From any state: the first buffer starts at [firstStart], the rest
    follow back to back. *)
Lemma run_turn (evs : list Event) :
  forall s,
    withinTurn evs = true ->
    steady true evs s = true ->
    let ds := map duration (buffersOf evs) in
    starts (snd (run evs s)) = gapless (firstStart evs s) ds
    /\ turnAudioDuration (fst (run evs s))
       = fold_left Qplus ds (turnAudioDuration s)
    /\ nextStartTime (fst (run evs s)) = fold_left Qplus ds (firstStart evs s).
Proof.
  induction evs as [|ev rest IH]; intros s Hq Hs; cbv zeta.
  - cbn. repeat split.
  - apply withinTurn_cons in Hq. destruct Hq as [Hq1 Hq2].
    rewrite steady_cons in Hs.
    rewrite fst_run_cons, snd_run_cons, starts_app, buffersOf_cons, map_app.
    cbn [firstStart]. destruct (carriesEvent ev) eqn:Hc.
    + cbn [orb andb] in Hs.
      destruct (step_carrying_buffer ev s Hq1 Hc) as (b & -> & -> & Hn & Hd).
      destruct (run_gapless rest _ Hq2 Hs) as (H1 & H2 & H3).
      rewrite Hn in H1, H3. rewrite Hd in H2.
      cbn [map app gapless fold_left]. now rewrite H1, H2, H3.
    + destruct (step_not_carrying ev s Hq1 Hc) as (-> & Hn & Hd).
      rewrite (buffersOf_not_carrying ev Hc).
      destruct (IH _ Hq2 Hs) as (H1 & H2 & H3).
      rewrite (firstStart_same rest _ _ Hn) in H1, H3. rewrite Hd in H2.
      cbn [map app]. now rewrite H1, H2, H3.
Qed.

(** C1: within one Turn, with no resynchronisation after the first buffer,
    every audio delta that decodes is started, in arrival order and with
    the duration of its buffer; the first at [firstStart], every other one
    exactly when the one before it ends; and the accumulated audio
    duration and the schedule time have grown by the duration of each
    buffer in turn. *)
Theorem gapless_scheduling (evs : list Event) (s : State) :
  withinTurn evs = true ->
  steady true evs s = true ->
  let ds := map duration (buffersOf evs) in
  starts (snd (run evs s)) = gapless (firstStart evs s) ds
  /\ contiguous (starts (snd (run evs s)))
  /\ turnAudioDuration (fst (run evs s))
     = fold_left Qplus ds (turnAudioDuration s)
  /\ nextStartTime (fst (run evs s)) = fold_left Qplus ds (firstStart evs s).
Proof.
  intros Hq Hs ds. destruct (run_turn evs s Hq Hs) as (H1 & H2 & H3).
  fold ds in H1, H2, H3. repeat split; try assumption.
  rewrite H1. destruct ds as [|d rest]; [exact I|].
  cbn [gapless contiguous]. apply gapless_contiguousFrom.
Qed.

(** The test of line 358, as a proposition. *)
Lemma resyncs_cases (t : Q) (s : State) :
  resyncs t s = true <-> nextStartTime s == 0 \/ nextStartTime s < t.
Proof.
  unfold resyncs. rewrite orb_true_iff, Qeq_bool_iff, Qltb_lt. tauto.
Qed.

(** C2: when an audio delta finds the schedule time unset ([nextStartTime]
    is 0, as at the start and after an interruption) or passed on the output
    clock, the buffer starts at the current output clock and the schedule
    continues from there; for a buffer that is not the first of its Turn
    and finds the schedule time passed, [turnStartTime] grows by exactly
    the gap [currentTime - nextStartTime]; for the first buffer of a Turn,
    [turnStartTime] is the current output clock. *)
Theorem starvation_resync (t : Q) (m : LiveServerMessage) (b : AudioBuffer)
    (s : State) :
  interrupted m = false ->
  carriesAudio m = Some b ->
  nextStartTime s == 0 \/ nextStartTime s < t ->
  let s' := fst (onmessage t m s) in
  snd (onmessage t m s) = [Start (created s) t (duration b)]
  /\ nextStartTime s' = t + duration b
  /\ (~ turnAudioDuration s == 0 -> nextStartTime s < t ->
      turnStartTime s' = turnStartTime s + (t - nextStartTime s))
  /\ (turnAudioDuration s == 0 -> turnStartTime s' = t).
Proof.
  intros Hi Hc Hr. apply resyncs_cases in Hr.
  rewrite (onmessage_uninterrupted t m s Hi), (playAudio_carries t m b Hc).
  destruct (pushWords_only_words m s) as [ws ->]. cbn [fst].
  set (s1 := set_turnWords _ s).
  assert (Hr1 : resyncs t s1 = true) by exact Hr.
  unfold schedule. fields. rewrite resync_nextStartTime, Hr1.
  assert (Hcr : created (resync t s1) = created s)
    by (unfold resync; break_tests; reflexivity).
  rewrite Hcr. repeat split.
  - intros Hd Hlt. unfold resync. rewrite Hr1.
    destruct (Qeq_bool (turnAudioDuration s1) 0) eqn:E.
    + apply Qeq_bool_iff in E. now elim Hd.
    + assert (Hg : Qltb 0 (t - nextStartTime s1) = true).
      { apply Qltb_lt. unfold s1. fields. lra. }
      rewrite Hg. reflexivity.
  - intros Hd. unfold resync. rewrite Hr1.
    assert (E : Qeq_bool (turnAudioDuration s1) 0 = true)
      by now apply Qeq_bool_iff.
    now rewrite E.
Qed.

(** ** Interruption *)

Lemma stopEach_effects (l : list nat) (s : State) :
  snd (stopEach l s) = map Stop l.
Proof.
  revert s. induction l as [|h r IH]; intros s; [reflexivity|].
  cbn [stopEach]. rewrite snd_andThen, snd_andThen.
  cbn [perform update fst snd app map]. now rewrite IH.
Qed.

Lemma stopEach_state (l : list nat) (s : State) :
  fst (stopEach l s) = set_sources (sources (fst (stopEach l s))) s.
Proof.
  revert s. induction l as [|h r IH]; intros s.
  - now destruct s.
  - cbn [stopEach]. rewrite fst_andThen, fst_andThen.
    cbn [perform update fst]. rewrite IH at 1.
    generalize (sources (fst (stopEach r
      (set_sources (setDelete h (sources s)) s)))).
    reflexivity.
Qed.

Lemma stopEach_empties (l : list nat) (s : State) :
  (forall h, In h (sources s) -> In h l) ->
  sources (fst (stopEach l s)) = [].
Proof.
  revert s. induction l as [|h r IH]; intros s Hsub.
  - cbn. destruct (sources s) as [|x xs]; [reflexivity|].
    elim (Hsub x). now left.
  - cbn [stopEach]. rewrite fst_andThen, fst_andThen.
    cbn [perform update fst]. apply IH. fields.
    intros x Hx. unfold setDelete in Hx. apply filter_In in Hx.
    destruct Hx as [Hx Hne]. apply negb_true_iff, Nat.eqb_neq in Hne.
    destruct (Hsub x Hx) as [E | Hin]; [now elim Hne | exact Hin].
Qed.

(** The interruption branch in one piece: every Turn variable is reset, the
    caption is emptied, and every live source is stopped. *)
Lemma interrupt_reset (m : LiveServerMessage) (s : State) :
  interrupted m = true ->
  let s' := fst (interrupt m s) in
  snd (interrupt m s) = SetKineticText noCaption :: map Stop (sources s)
  /\ sources s' = [] /\ turnWords s' = []
  /\ turnStartTime s' = 0 /\ turnAudioDuration s' = 0
  /\ nextStartTime s' = 0 /\ previousStateKey s' = EmptyString
  /\ kineticText s' = noCaption.
Proof.
  intros Hi. unfold interrupt. rewrite Hi. unfold setKineticText.
  repeat rewrite ?fst_andThen, ?snd_andThen.
  cbn [update perform fst snd app].
  set (s1 := set_kineticText _ _).
  change (sources s) with (sources s1).
  rewrite stopEach_effects, app_nil_r.
  rewrite (stopEach_state (sources s1) s1).
  rewrite (stopEach_empties (sources s1) s1) by auto.
  repeat split; reflexivity.
Qed.

Lemma setAdd_In (x : nat) (l : list nat) : In x (setAdd x l).
Proof.
  unfold setAdd. destruct (existsb (Nat.eqb x) l) eqn:E.
  - apply existsb_exists in E. destruct E as [y [Hy E]].
    apply Nat.eqb_eq in E. now subst.
  - apply in_or_app. right. now left.
Qed.

Lemma setAdd_incl (x y : nat) (l : list nat) : In y l -> In y (setAdd x l).
Proof.
  unfold setAdd. destruct (existsb (Nat.eqb x) l); [auto|].
  intros H. apply in_or_app. now left.
Qed.

(** Before the interruption flag is read, the live set holds what it held
    plus the source this message has started, if any. *)
Lemma playAudio_sources (t : Q) (m : LiveServerMessage) (s : State) :
  let s1 := fst (playAudio t m (fst (pushWords m s))) in
  let es := snd (playAudio t m (fst (pushWords m s))) in
  (forall h, In h (sources s) -> In h (sources s1))
  /\ (forall h w d, In (Start h w d) es -> In h (sources s1)).
Proof.
  destruct (pushWords_only_words m s) as [ws ->]. cbn [fst].
  set (s0 := set_turnWords _ s).
  assert (Hs0 : sources s0 = sources s) by reflexivity.
  destruct (carriesAudio m) as [b|] eqn:Hc.
  - rewrite (playAudio_carries t m b Hc). unfold schedule. fields.
    assert (Hr : sources (resync t s0) = sources s)
      by (unfold resync; break_tests; reflexivity).
    rewrite Hr. split.
    + intros h Hh. now apply setAdd_incl.
    + intros h w d [E | []]. injection E as <- _ _. apply setAdd_In.
  - destruct (playAudio_silent t m Hc s0) as [-> Hl]. split.
    + now rewrite Hs0.
    + intros h w d Hin. destruct Hl as [E | E]; rewrite E in Hin.
      * destruct Hin.
      * destruct Hin as [? | []]. discriminate.
Qed.

(** C3: one [Interrupted] event, in the single step that handles it, stops
    every live source (those live before the message and the one the
    message itself may have started), empties the live set, zeroes
    [turnStartTime], the accumulated duration and [nextStartTime], empties
    the word list and sets the caption to no words and index -1; whatever
    is handled next starts from that state. *)
Theorem interruption_resets (t : Q) (m : LiveServerMessage) (s : State) :
  interrupted m = true ->
  let s' := fst (onmessage t m s) in
  let es := snd (onmessage t m s) in
  (forall h, In h (sources s) -> In (Stop h) es)
  /\ (forall h w d, In (Start h w d) es -> In (Stop h) es)
  /\ sources s' = [] /\ turnWords s' = []
  /\ turnStartTime s' = 0 /\ turnAudioDuration s' = 0
  /\ nextStartTime s' = 0
  /\ kineticText s' = {| words := []; activeIndex := -1 |}
  /\ In (SetKineticText {| words := []; activeIndex := -1 |}) es
  /\ forall evs, fst (run (Message t m :: evs) s) = fst (run evs s').
Proof.
  intros Hi. unfold onmessage.
  rewrite !fst_andThen, !snd_andThen.
  destruct (playAudio_sources t m s) as [Hold Hnew].
  set (s1 := fst (playAudio t m (fst (pushWords m s)))) in *.
  set (e1 := snd (playAudio t m (fst (pushWords m s)))) in *.
  destruct (interrupt_reset m s1 Hi) as (He & H1 & H2 & H3 & H4 & H5 & _ & H7).
  rewrite He.
  assert (Hstop : forall h, In h (sources s1) ->
            In (Stop h) (snd (pushWords m s) ++ e1 ++
                         SetKineticText noCaption :: map Stop (sources s1))).
  { intros h Hh. apply in_or_app. right. apply in_or_app. right. right.
    now apply in_map. }
  repeat split; try assumption.
  - intros h Hh. apply Hstop, Hold, Hh.
  - intros h w d Hin. apply Hstop.
    destruct (pushWords_only_words m s) as [ws E]. rewrite E in Hin.
    cbn [snd app] in Hin. apply in_app_or in Hin. destruct Hin as [Hin | Hin].
    + now apply (Hnew h w d).
    + destruct Hin as [? | Hin]; [discriminate|].
      apply in_map_iff in Hin. destruct Hin as [? [? _]]. discriminate.
  - apply in_or_app. right. apply in_or_app. right. now left.
  - intros evs. rewrite fst_run_cons. cbn [step]. unfold onmessage.
    now rewrite !fst_andThen.
Qed.

(** ** Malformed deltas *)

(** C9: a non-empty payload that fails to decode is logged and skipped:
    [turnStartTime], [nextStartTime], the accumulated duration and the live
    set are what they were, nothing is started, and the events that follow
    are handled as if the message had carried its transcript only. *)
Theorem malformed_delta_skipped (t : Q) (m : LiveServerMessage) (p : string)
    (s : State) :
  inlineData m = Some p ->
  p <> EmptyString ->
  decodeDelta p = None ->
  interrupted m = false ->
  let s' := fst (onmessage t m s) in
  snd (onmessage t m s) = [ConsoleError]
  /\ s' = fst (pushWords m s)
  /\ (outputTranscription m = None -> s' = s)
  /\ turnStartTime s' = turnStartTime s
  /\ nextStartTime s' = nextStartTime s
  /\ turnAudioDuration s' = turnAudioDuration s
  /\ sources s' = sources s
  /\ forall evs,
       run (Message t m :: evs) s
       = (fst (run evs s'), ConsoleError :: snd (run evs s')).
Proof.
  intros Hp Hne Hd Hi.
  assert (E : onmessage t m s = (fst (pushWords m s), [ConsoleError])).
  { rewrite (onmessage_uninterrupted t m s Hi). unfold playAudio.
    rewrite Hp, Hd. destruct p; [now elim Hne | reflexivity]. }
  cbn zeta. rewrite E. cbn [fst snd].
  destruct (pushWords_schedule m s) as (Hn & Hst & Hdur & Hsrc & _).
  repeat split; try assumption.
  - intros Ht. unfold pushWords. rewrite Ht. reflexivity.
  - intros evs. cbn [run step]. unfold andThen. rewrite E.
    now destruct (run evs (fst (pushWords m s))).
Qed.

(** ** Volume *)

Lemma currentVolumeOf_range (sp : option (list byte)) :
  0 <= currentVolumeOf sp <= 1.
Proof.
  unfold currentVolumeOf. destruct sp as [dataArray|]; [|split; discriminate].
  destruct (Qltb noiseGate _); [|split; discriminate].
  split.
  - apply Q.min_glb; [discriminate | apply Q.le_max_l].
  - apply Q.le_min_l.
Qed.

Lemma smoothVolume_wide (v c d : Q) :
  0 <= v <= 8 # 5 -> 0 <= c <= 1 -> 0 <= d <= 1 # 10 ->
  0 <= smoothVolume v c d <= 8 # 5.
Proof.
  intros [Hv0 Hv1] [Hc0 Hc1] [Hd0 Hd1]. unfold smoothVolume.
  destruct (Qltb v c) eqn:E.
  - apply Qltb_lt in E. split; nra.
  - apply Qltb_ge in E. split; nra.
Qed.

Lemma smoothVolume_unit (v c d : Q) :
  0 <= v <= 1 -> 0 <= c <= 1 -> 0 <= d <= 1 # 16 ->
  0 <= smoothVolume v c d <= 1.
Proof.
  intros [Hv0 Hv1] [Hc0 Hc1] [Hd0 Hd1]. unfold smoothVolume.
  destruct (Qltb v c) eqn:E.
  - apply Qltb_lt in E. split; nra.
  - apply Qltb_ge in E. split; nra.
Qed.

Lemma sameFrameState_refl (s : State) : sameFrameState s s.
Proof. repeat split. Qed.

Lemma sameFrameState_trans (s1 s2 s3 : State) :
  sameFrameState s1 s2 -> sameFrameState s2 s3 -> sameFrameState s1 s3.
Proof.
  unfold sameFrameState. intros (A1 & A2 & A3 & A4 & A5) (B1 & B2 & B3 & B4 & B5).
  repeat split; congruence.
Qed.

(** A server message changes neither the volume nor the timer. *)
Lemma onmessage_sameFrameState (t : Q) (m : LiveServerMessage) (s : State) :
  sameFrameState s (fst (onmessage t m s)).
Proof.
  unfold onmessage. rewrite !fst_andThen.
  destruct (pushWords_only_words m s) as [ws ->]. cbn [fst].
  set (s0 := set_turnWords _ s).
  apply sameFrameState_trans with s0; [repeat split|].
  set (s1 := fst (playAudio t m s0)).
  apply sameFrameState_trans with s1.
  - unfold s1. destruct (carriesAudio m) as [b|] eqn:Hc.
    + rewrite (playAudio_carries t m b Hc). unfold schedule, resync.
      break_tests; repeat split.
    + destruct (playAudio_silent t m Hc s0) as [-> _].
      apply sameFrameState_refl.
  - unfold interrupt. destruct (interrupted m); [|apply sameFrameState_refl].
    unfold setKineticText. repeat rewrite ?fst_andThen.
    cbn [update perform fst].
    match goal with |- context [stopEach ?l ?x] =>
      rewrite (stopEach_state l x) end.
    repeat split.
Qed.

Lemma step_uVolume (ev : Event) (s : State) :
  uVolume (fst (step ev s))
  = match ev with
    | Frame f =>
        smoothVolume (uVolume s) (currentVolumeOf (spectrum f))
                     (Qmin (clockDelta f) (1 # 10))
    | _ => uVolume s
    end.
Proof.
  destruct ev as [t m|h|f|now id].
  - apply onmessage_sameFrameState.
  - reflexivity.
  - handler_cases; reflexivity.
  - handler_cases; reflexivity.
Qed.

Lemma volume_invariant (evs : list Event) :
  Forall (fun d => 0 <= d) (frameDeltas evs) ->
  forall s,
    (0 <= uVolume s <= 8 # 5 ->
     0 <= uVolume (fst (run evs s)) <= 8 # 5)
    /\ (Forall (fun d => d <= 1 # 16) (frameDeltas evs) ->
        0 <= uVolume s <= 1 -> 0 <= uVolume (fst (run evs s)) <= 1).
Proof.
  induction evs as [|ev rest IH]; intros Hpos s; [cbn; tauto|].
  unfold frameDeltas in *. cbn [flat_map] in *.
  apply Forall_app in Hpos. destruct Hpos as [Hd Hrest].
  rewrite fst_run_cons.
  destruct (IH Hrest (fst (step ev s))) as [IHw IHu].
  rewrite step_uVolume in IHw, IHu.
  pose proof (currentVolumeOf_range) as Hc.
  destruct ev as [t m|h|f|now id]; try (split; [exact IHw|]);
    try (intros Hu; exact (IHu Hu)).
  inversion_clear Hd as [|? ? Hd0 _]. split.
  - intros Hv. apply IHw. apply smoothVolume_wide; auto. split.
    + apply Q.min_glb; [assumption | discriminate].
    + apply Q.le_min_r.
  - intros Hu Hv. apply Forall_app in Hu. destruct Hu as [Hf Hu].
    inversion_clear Hf as [|? ? Hd1 _].
    apply (IHu Hu). apply smoothVolume_unit; auto. split.
    + apply Q.min_glb; [assumption | discriminate].
    + apply Qle_trans with (clockDelta f); [apply Q.le_min_l | assumption].
Qed.

(** How far the smoothed volume can go: over any run whose frames have
    non-negative elapsed times it stays within [0, 8/5], and within [0, 1]
    when every frame's elapsed time is at most 1/16 s, where the step
    factor [16 * delta] is at most 1. *)
Lemma volume_bounds (evs : list Event) :
  Forall (fun d => 0 <= d) (frameDeltas evs) ->
  let v := uVolume (fst (run evs initial)) in
  0 <= v <= 8 # 5
  /\ (Forall (fun d => d <= 1 # 16) (frameDeltas evs) -> 0 <= v <= 1).
Proof.
  intros Hpos. destruct (volume_invariant evs Hpos initial) as [Hw Hu].
  split.
  - apply Hw. split; discriminate.
  - intros Hsmall. apply Hu; [assumption | split; discriminate].
Qed.

(** C8: the code leaves [0, 1].  The first frame, drawn a tenth of a
    second after the clock started, with a spectrum of mean 64: the raw
    volume is clamped to 1 (line 450), and the interpolation towards it
    (line 455), with rate 16 and the elapsed time capped at 0.1 s
    (line 433), steps by 16 * 0.1 = 1.6 times the distance: the smoothed
    volume passes the raw volume it moves towards and becomes 8/5. *)
Theorem volume_exceeds_one :
  let f := loudSlowFrame in
  let target := currentVolumeOf (spectrum f) in
  let v := uVolume (fst (run [Frame f] initial)) in
  uVolume initial == 0
  /\ target == 1
  /\ Qmin (clockDelta f) (1 # 10) == 1 # 10
  /\ v == 8 # 5
  /\ ~ (0 <= v <= 1).
Proof.
  cbn zeta. repeat (split; [reflexivity|]).
  intros [_ H]. vm_compute in H. apply H. reflexivity.
Qed.

(** ** Caption index along a Turn *)

(** Events of a Turn that schedule no audio keep the start and the
    accumulated duration of the Turn, and only add words. *)
Lemma run_not_carrying (evs : list Event) :
  forall s,
    withinTurn evs = true ->
    existsb carriesEvent evs = false ->
    let s' := fst (run evs s) in
    turnStartTime s' = turnStartTime s
    /\ turnAudioDuration s' = turnAudioDuration s
    /\ (List.length (turnWords s) <= List.length (turnWords s'))%nat.
Proof.
  induction evs as [|ev rest IH]; intros s Hq Hc; [cbn; auto|].
  apply withinTurn_cons in Hq. destruct Hq as [Hq1 Hq2].
  cbn [existsb] in Hc. apply orb_false_iff in Hc. destruct Hc as [Hc1 Hc2].
  cbn zeta. rewrite fst_run_cons.
  destruct (IH (fst (step ev s)) Hq2 Hc2) as (Ht & Hd & Hw).
  destruct (step_not_carrying ev s Hq1 Hc1) as (_ & _ & Hd').
  destruct (step_not_carrying_words ev s Hq1 Hc1) as (Ht' & ws & Hw').
  rewrite Ht, Hd, Ht', Hd'. repeat split.
  rewrite Hw', length_app in Hw. lia.
Qed.

(** C4, amended: whenever the Turn has words, the word index computed at a
    frame lies within [0, wordCount - 1]; and between two frames of a Turn
    with no audio delta scheduled in between (words may arrive), the index
    does not decrease as the output clock increases. *)
Theorem activeWord_range_monotone (evs : list Event) (s : State) (t1 t2 : Q) :
  (0 < List.length (turnWords s))%nat ->
  withinTurn evs = true ->
  existsb carriesEvent evs = false ->
  t1 <= t2 ->
  let s' := fst (run evs s) in
  (0 <= activeWordAbsolute s t1
     <= Z.of_nat (List.length (turnWords s)) - 1)%Z
  /\ (0 <= activeWordAbsolute s' t2
        <= Z.of_nat (List.length (turnWords s')) - 1)%Z
  /\ (activeWordAbsolute s t1 <= activeWordAbsolute s' t2)%Z.
Proof.
  intros Hn Hq Hc Ht.
  destruct (run_not_carrying evs s Hq Hc) as (Hst & Hd & Hw).
  cbn zeta. repeat split;
    try (apply activeWordAbsolute_range; lia).
  apply activeWordAbsolute_mono; try assumption.
  - rewrite Hst. lra.
  - now rewrite Hd.
Qed.

(** C4 as stated fails: in [slowingTurn] no interruption occurs, the second
    frame comes later than the first on the output clock, and the caption
    goes back from word 1 to word 0, because the audio scheduled in between
    lowers the pace from 6 to 8/3 words per second. *)
Lemma activeWord_decreases :
  withinTurn slowingTurn = true
  /\ snd (run slowingTurn initial)
     = [ Start 0 1 (6000 # 24000);
         SetKineticText {| words := ["alpha"; "beta"]%string; activeIndex := 1 |};
         SetStatus "AI is speaking...";
         Start 1 (1 + (6000 # 24000)) (12000 # 24000);
         SetKineticText {| words := ["alpha"; "beta"]%string; activeIndex := 0 |} ]
  /\ (let s1 := fst (run (firstn 1 slowingTurn) initial) in
      let s2 := fst (run (firstn 3 slowingTurn) initial) in
      activeWordAbsolute s1 (120 # 100) = 1%Z
      /\ activeWordAbsolute s2 (122 # 100) = 0%Z).
Proof. vm_compute. repeat split; reflexivity. Qed.

(** ** The branches of [render] *)

Lemma render_playing (f : FrameInput) (s : State) :
  sources s <> [] ->
  render f s
  = andThen (paceCaption (outputTime f)) risingEdge
      (set_uVolume (frameVolume f s) s).
Proof.
  intros H. unfold render. fields.
  destruct (sources s); [now elim H | reflexivity].
Qed.

Lemma render_falling (f : FrameInput) (s : State) :
  sources s = [] -> aiWasPlaying s = true ->
  render f s = fallingEdge (wallTime f) (set_uVolume (frameVolume f s) s).
Proof. intros H1 H2. unfold render. fields. now rewrite H1, H2. Qed.

Lemma render_idle (f : FrameInput) (s : State) :
  sources s = [] -> aiWasPlaying s = false ->
  render f s = (set_uVolume (frameVolume f s) s, []).
Proof. intros H1 H2. unfold render. fields. now rewrite H1, H2. Qed.

Lemma showWord_new (a : Z) (s : State) :
  String.eqb (keyAt a) (previousStateKey s) = false ->
  showWord a s
  = (set_kineticText (captionAt (turnWords s) a)
       (set_previousStateKey (keyAt a) s),
     [SetKineticText (captionAt (turnWords s) a)]).
Proof.
  intros H. unfold showWord. fold (keyAt a). now rewrite H.
Qed.

Lemma showWord_same (a : Z) (s : State) :
  String.eqb (keyAt a) (previousStateKey s) = true ->
  showWord a s = (s, []).
Proof.
  intros H. unfold showWord. fold (keyAt a). now rewrite H.
Qed.

Lemma paceCaption_shows (t : Q) (s : State) :
  0 < turnAudioDuration s -> turnWords s <> [] ->
  paceCaption t s = showWord (activeWordAbsolute s t) s.
Proof.
  intros Hd Hw. unfold paceCaption.
  apply Qltb_lt in Hd. rewrite Hd.
  destruct (turnWords s) as [|w ws] eqn:E; [now elim Hw|].
  cbn [List.length Nat.ltb Nat.leb andb].
  assert (H : (0 <=? activeWordAbsolute s t)%Z = true).
  { apply Z.leb_le. apply activeWordAbsolute_range. rewrite E. cbn. lia. }
  now rewrite H.
Qed.

(** ** The scenario of the specification *)

Lemma Some_eq {A : Type} (x y : A) : Some x = Some y -> x = y.
Proof. now injection 1. Qed.

Lemma silence_three_seconds :
  option_map duration (decodeDelta (silence 144000)) = Some (72000 # 24000).
Proof. vm_compute. reflexivity. Qed.

(** The state after the three transcript fragments. *)
Lemma hello_words (t0 : Q) :
  fst (run (firstn 3 (helloTurn t0)) initial)
  = set_turnWords ["hello"; "world"; "this"; "is"; "a"; "test"]%string initial.
Proof. vm_compute. reflexivity. Qed.

(** The state after the audio delta: the Turn starts at [t0]. *)
Lemma hello_state (t0 : Q) :
  exists d,
    d == 3
    /\ run (helloTurn t0) initial
       = (mkState ["hello"; "world"; "this"; "is"; "a"; "test"]%string
            t0 (0 + d) (t0 + d) EmptyString [O] false None noCaption 0
            1%nat [] O,
          [Start 0 t0 d]).
Proof.
  pose proof silence_three_seconds as Hd.
  destruct (decodeDelta (silence 144000)) as [b|] eqn:Hb; [|discriminate].
  cbn [option_map] in Hd. exists (duration b). split.
  - apply Some_eq in Hd. rewrite Hd. reflexivity.
  - change (helloTurn t0)
      with (firstn 3 (helloTurn t0)
            ++ [Message t0 (audioDelta (silence 144000))]).
    apply injective_projections.
    + rewrite fst_run_app, hello_words, fst_run_cons. cbn [run skip fst step].
      rewrite onmessage_uninterrupted by reflexivity.
      rewrite (playAudio_carries t0 _ b) by exact Hb.
      reflexivity.
    + rewrite snd_run_app, hello_words, snd_run_cons. cbn [run skip fst snd step].
      rewrite onmessage_uninterrupted by reflexivity.
      rewrite (playAudio_carries t0 _ b) by exact Hb.
      assert (E : snd (run (firstn 3 (helloTurn t0)) initial) = [])
        by (vm_compute; reflexivity).
      rewrite E. reflexivity.
Qed.

(** C6: after the fragments "hello", "world this", "is a test" and one
    audio delta of three seconds, the Turn has the six words in order, the
    pace is 2 words per second, and a frame one second into the Turn
    computes word 2, chunk 0, position 2, and shows the first five words
    with position 2 active. *)
Theorem caption_scenario (t0 delta wall : Q) (sp : option (list byte)) :
  let s := fst (run (helloTurn t0) initial) in
  let f := {| clockDelta := delta; spectrum := sp;
              outputTime := t0 + 1; wallTime := wall |} in
  let shown :=
    {| words := ["hello"; "world"; "this"; "is"; "a"]%string;
       activeIndex := 2 |} in
  turnWords s = ["hello"; "world"; "this"; "is"; "a"; "test"]%string
  /\ turnAudioDuration s == 3
  /\ smoothedWps (List.length (turnWords s)) (turnAudioDuration s) == 2
  /\ activeWordAbsolute s (outputTime f) = 2%Z
  /\ (2 / CHUNK_SIZE = 0)%Z /\ Z.rem 2 CHUNK_SIZE = 2%Z
  /\ captionAt (turnWords s) 2 = shown
  /\ snd (render f s) = [SetKineticText shown; SetStatus "AI is speaking..."]
  /\ kineticText (fst (render f s)) = shown.
Proof.
  destruct (hello_state t0) as (d & Hd & E). cbn zeta. rewrite E.
  cbn [fst outputTime]. set (s := mkState _ _ _ _ _ _ _ _ _ _ _ _ _).
  clear E.
  assert (Hdur : turnAudioDuration s == 3)
    by (unfold s; fields; clear - Hd; lra).
  assert (Hwps : smoothedWps 6 (turnAudioDuration s) == 2).
  { rewrite (smoothedWps_ext 6 _ 3 Hdur). reflexivity. }
  assert (Hact : activeWordAbsolute s (t0 + 1) = 2%Z).
  { rewrite (activeWordAbsolute_ext s
               (set_turnAudioDuration 3 (set_turnWords (turnWords s) initial))
               (t0 + 1) 1); [reflexivity | | exact Hdur | reflexivity].
    unfold s, initial. fields. clear. lra. }
  set (f := {| clockDelta := delta; spectrum := sp;
               outputTime := t0 + 1; wallTime := wall |}).
  assert (Hr : render f s
               = (set_clearTextTimeout None
                    (set_aiWasPlaying true
                       (set_kineticText
                          {| words := ["hello"; "world"; "this"; "is"; "a"]%string;
                             activeIndex := 2 |}
                          (set_previousStateKey "0-2"
                             (set_uVolume (frameVolume f s) s)))),
                  [SetKineticText
                     {| words := ["hello"; "world"; "this"; "is"; "a"]%string;
                        activeIndex := 2 |};
                   SetStatus "AI is speaking..."])).
  { rewrite render_playing by discriminate. unfold andThen.
    rewrite paceCaption_shows;
      [| unfold s; fields; clear - Hd; lra | discriminate].
    change (activeWordAbsolute (set_uVolume _ s) (outputTime f))
      with (activeWordAbsolute s (t0 + 1)).
    rewrite Hact, showWord_new by reflexivity.
    reflexivity. }
  repeat split; try assumption; try reflexivity.
  - now rewrite Hr.
  - now rewrite Hr.
Qed.

(** ** The grace timer *)

Lemma timerInv_same (s s' : State) :
  sameFrameState s s' -> timerInv s -> timerInv s'.
Proof.
  unfold sameFrameState, timerInv. intros (_ & Ha & Hc & Ht & _).
  now rewrite Ha, Hc, Ht.
Qed.

Lemma paceCaption_sameFrameState (t : Q) (s : State) :
  sameFrameState s (fst (paceCaption t s)).
Proof.
  unfold paceCaption, showWord, setKineticText, andThen, update, perform.
  break_tests; repeat split.
Qed.

(** What the falling edge does. *)
Lemma fallingEdge_state (now : Q) (s : State) :
  let s' := fst (fallingEdge now s) in
  let last := (Z.of_nat (List.length (turnWords s)) - 1)%Z in
  turnWords s' = turnWords s
  /\ turnStartTime s' = turnStartTime s
  /\ turnAudioDuration s' = turnAudioDuration s
  /\ sources s' = sources s
  /\ aiWasPlaying s' = false
  /\ clearTextTimeout s' = Some (S (timerCount s))
  /\ timers s' = timers s ++ [(S (timerCount s), now + gracePeriod)]
  /\ (turnWords s <> [] ->
      previousStateKey s' = keyAt last
      /\ (kineticText s' = captionAt (turnWords s) last
          \/ previousStateKey s = keyAt last
             /\ kineticText s' = kineticText s)).
Proof.
  unfold fallingEdge. repeat rewrite ?fst_andThen.
  cbn [update perform fst]. fields.
  destruct (turnWords s) as [|w ws] eqn:E.
  - cbn [fst]. fields. rewrite E.
    repeat (split; [reflexivity|]). intros Hne. now elim Hne.
  - set (last := (Z.of_nat (List.length (w :: ws)) - 1)%Z).
    set (s0 := set_aiWasPlaying false s).
    destruct (String.eqb (keyAt last) (previousStateKey s0)) eqn:K.
    + rewrite (showWord_same last s0 K). cbn [fst]. unfold s0. fields.
      rewrite E. repeat (split; [reflexivity|]). intros _.
      apply String.eqb_eq in K. unfold s0 in K. fields.
      split; [now symmetry|]. right. split; [now symmetry | reflexivity].
    + rewrite (showWord_new last s0 K). cbn [fst]. unfold s0. fields.
      rewrite E. repeat (split; [reflexivity|]). now left.
Qed.

Lemma risingEdge_timers (s : State) :
  timerInv s ->
  let s' := fst (risingEdge s) in
  timerInv s' /\ (aiWasPlaying s = false -> timers s' = []).
Proof.
  unfold risingEdge. intros Hinv.
  destruct (aiWasPlaying s) eqn:Ha; cbn [fst];
    [split; [exact Hinv | discriminate]|].
  unfold andThen, update, perform. cbn [fst].
  unfold timerInv in *. rewrite Ha in Hinv. cbv beta. fields.
  destruct (timers s) as [|[id due] [|? ?]] eqn:Ht; [| |destruct Hinv].
  - destruct (clearTextTimeout s) as [id|]; fields; rewrite ?Ht; cbn;
      split; auto.
  - destruct Hinv as [Hc _]. rewrite Hc. fields. rewrite Ht.
    cbn [filter fst]. rewrite Nat.eqb_refl. cbn. split; auto.
Qed.

Lemma dueOf_single (id id' : nat) (due due' : Q) (s : State) :
  timers s = [(id', due')] -> dueOf id s = Some due -> id' = id /\ due' = due.
Proof.
  unfold dueOf. intros ->. cbn [find fst].
  destruct (Nat.eqb_spec id' id); cbn; [|discriminate].
  intros H. apply Some_eq in H. auto.
Qed.

(** Every event keeps the timer invariant. *)
Lemma step_timerInv (ev : Event) (s : State) :
  timerInv s -> timerInv (fst (step ev s)).
Proof.
  intros Hinv. destruct ev as [t m|h|f|now id]; cbn [step].
  - apply (timerInv_same s); [apply onmessage_sameFrameState | exact Hinv].
  - exact Hinv.
  - destruct (sources s) as [|x xs] eqn:Hs.
    + destruct (aiWasPlaying s) eqn:Ha.
      * rewrite render_falling by assumption.
        destruct (fallingEdge_state (wallTime f)
                    (set_uVolume (frameVolume f s) s))
          as (_ & _ & _ & _ & Ha' & Hc' & Ht' & _).
        unfold timerInv in *. rewrite Ht', Ha', Hc'. fields.
        destruct (timers s) as [|[id due] [|? ?]]; cbn [app];
          [split; reflexivity | destruct Hinv; congruence | destruct Hinv].
      * rewrite render_idle by assumption. exact Hinv.
    + rewrite render_playing by (rewrite Hs; discriminate).
      rewrite fst_andThen. apply risingEdge_timers.
      apply (timerInv_same (set_uVolume (frameVolume f s) s));
        [apply paceCaption_sameFrameState | exact Hinv].
  - destruct (dueOf id s) as [due|] eqn:Hd; [|exact Hinv].
    destruct (Qle_bool due now); [|exact Hinv].
    rewrite fst_andThen. cbn [update fst].
    unfold timerInv in *.
    assert (Hc : timers (fst (clearText (clearTimeout id s)))
                 = timers (clearTimeout id s)).
    { unfold clearText, setKineticText, andThen, update, perform.
      break_tests; reflexivity. }
    rewrite Hc. fields.
    destruct (timers s) as [|[id' due'] [|? ?]] eqn:Ht; [exact I| |destruct Hinv].
    destruct (dueOf_single id id' due due' s Ht Hd) as [-> _].
    cbn [filter fst]. rewrite Nat.eqb_refl. exact I.
Qed.

Lemma run_timerInv (evs : list Event) :
  forall s, timerInv s -> timerInv (fst (run evs s)).
Proof.
  induction evs as [|ev rest IH]; intros s Hinv; [exact Hinv|].
  rewrite fst_run_cons. now apply IH, step_timerInv.
Qed.

Lemma reachable_timerInv (evs : list Event) :
  timerInv (fst (run evs initial)).
Proof. apply run_timerInv. exact I. Qed.

(** Frames drawn while nothing plays and nothing was playing only move the
    volume. *)
Lemma run_idle (fs : list Event) :
  forallb isFrame fs = true ->
  forall s, sources s = [] -> aiWasPlaying s = false ->
            exists v, run fs s = (set_uVolume v s, []).
Proof.
  induction fs as [|ev rest IH]; intros Hf s Hs Ha.
  - exists (uVolume s). now destruct s.
  - cbn [forallb] in Hf. apply andb_true_iff in Hf. destruct Hf as [Hev Hf].
    destruct ev as [| |f|]; try discriminate.
    destruct (IH Hf (set_uVolume (frameVolume f s) s) Hs Ha) as [v E].
    exists v. cbn [run step]. unfold andThen.
    rewrite (render_idle f s Hs Ha), E. reflexivity.
Qed.




(** ** The key and the caption *)
















(** ** Events that schedule nothing *)






(** Why the interruption is excluded: in the grace period it clears the
    caption itself, and the timer, which it does not cancel, clears it
    again. *)
Lemma interruption_clears_again :
  besidesErrors
    (snd (run [Message 1 bargeIn; TimerFired 3700 1]
              (fst (run (shortTurn ++ [Frame (frameAt (2 # 10))]) initial))))
  = [SetKineticText noCaption; SetKineticText noCaption].
Proof. vm_compute. reflexivity. Qed.


(** ** The theorems at concrete inputs *)

Lemma gapless_scheduling_witness :
  withinTurn steadyTurn = true
  /\ steady true steadyTurn initial = true
  /\ (let ds := map duration (buffersOf steadyTurn) in
      starts (snd (run steadyTurn initial))
      = gapless (firstStart steadyTurn initial) ds
      /\ contiguous (starts (snd (run steadyTurn initial)))
      /\ turnAudioDuration (fst (run steadyTurn initial))
         = fold_left Qplus ds (turnAudioDuration initial)
      /\ nextStartTime (fst (run steadyTurn initial))
         = fold_left Qplus ds (firstStart steadyTurn initial)).
Proof.
  assert (H1 : withinTurn steadyTurn = true) by (vm_compute; reflexivity).
  assert (H2 : steady true steadyTurn initial = true)
    by (vm_compute; reflexivity).
  exact (conj H1 (conj H2 (gapless_scheduling steadyTurn initial H1 H2))).
Defined.

Lemma starvation_resync_witness :
  let s := fst (run [Message 1 (audioDelta (silence 4))] initial) in
  let m := audioDelta (silence 4) in
  let s' := fst (onmessage 2 m s) in
  interrupted m = false
  /\ carriesAudio m = Some twoSamples
  /\ (nextStartTime s == 0 \/ nextStartTime s < 2)
  /\ (snd (onmessage 2 m s) = [Start (created s) 2 (duration twoSamples)]
      /\ nextStartTime s' = 2 + duration twoSamples
      /\ (~ turnAudioDuration s == 0 -> nextStartTime s < 2 ->
          turnStartTime s' = turnStartTime s + (2 - nextStartTime s))
      /\ (turnAudioDuration s == 0 -> turnStartTime s' = 2)).
Proof.
  set (s := fst (run [Message 1 (audioDelta (silence 4))] initial)).
  set (m := audioDelta (silence 4)).
  assert (H1 : interrupted m = false) by reflexivity.
  assert (H2 : carriesAudio m = Some twoSamples) by (vm_compute; reflexivity).
  assert (H3 : nextStartTime s == 0 \/ nextStartTime s < 2)
    by (right; vm_compute; reflexivity).
  exact (conj H1 (conj H2 (conj H3
           (starvation_resync 2 m twoSamples s H1 H2 H3)))).
Defined.

Lemma interruption_resets_witness :
  let s := fst (run [Message 1 (audioDelta (silence 4))] initial) in
  let s' := fst (onmessage 1 bargeIn s) in
  let es := snd (onmessage 1 bargeIn s) in
  interrupted bargeIn = true
  /\ ((forall h, In h (sources s) -> In (Stop h) es)
      /\ (forall h w d, In (Start h w d) es -> In (Stop h) es)
      /\ sources s' = [] /\ turnWords s' = []
      /\ turnStartTime s' = 0 /\ turnAudioDuration s' = 0
      /\ nextStartTime s' = 0
      /\ kineticText s' = {| words := []; activeIndex := -1 |}
      /\ In (SetKineticText {| words := []; activeIndex := -1 |}) es
      /\ forall evs, fst (run (Message 1 bargeIn :: evs) s) = fst (run evs s')).
Proof.
  exact (conj eq_refl
           (interruption_resets 1 bargeIn
              (fst (run [Message 1 (audioDelta (silence 4))] initial))
              eq_refl)).
Defined.

Lemma activeWord_range_monotone_witness :
  let s := fst (run (firstn 1 slowingTurn) initial) in
  let evs := [Message (11 # 10) (transcript "gamma delta")] in
  let s' := fst (run evs s) in
  (0 < List.length (turnWords s))%nat
  /\ withinTurn evs = true
  /\ existsb carriesEvent evs = false
  /\ 11 # 10 <= 12 # 10
  /\ ((0 <= activeWordAbsolute s (11 # 10)
         <= Z.of_nat (List.length (turnWords s)) - 1)%Z
      /\ (0 <= activeWordAbsolute s' (12 # 10)
            <= Z.of_nat (List.length (turnWords s')) - 1)%Z
      /\ (activeWordAbsolute s (11 # 10)
          <= activeWordAbsolute s' (12 # 10))%Z).
Proof.
  set (s := fst (run (firstn 1 slowingTurn) initial)).
  set (evs := [Message (11 # 10) (transcript "gamma delta")]).
  assert (H1 : (0 < List.length (turnWords s))%nat)
    by (vm_compute; repeat constructor).
  assert (H2 : withinTurn evs = true) by reflexivity.
  assert (H3 : existsb carriesEvent evs = false) by reflexivity.
  assert (H4 : 11 # 10 <= 12 # 10) by discriminate.
  exact (conj H1 (conj H2 (conj H3 (conj H4
           (activeWord_range_monotone evs s (11 # 10) (12 # 10)
              H1 H2 H3 H4))))).
Defined.

Lemma malformed_delta_skipped_witness :
  let s := fst (run [Message 1 (audioDelta (silence 4))] initial) in
  let m := audioDelta "AA==" in
  let s' := fst (onmessage 2 m s) in
  inlineData m = Some "AA=="%string
  /\ "AA=="%string <> EmptyString
  /\ decodeDelta "AA==" = None
  /\ interrupted m = false
  /\ (snd (onmessage 2 m s) = [ConsoleError]
      /\ s' = fst (pushWords m s)
      /\ (outputTranscription m = None -> s' = s)
      /\ turnStartTime s' = turnStartTime s
      /\ nextStartTime s' = nextStartTime s
      /\ turnAudioDuration s' = turnAudioDuration s
      /\ sources s' = sources s
      /\ forall evs,
           run (Message 2 m :: evs) s
           = (fst (run evs s'), ConsoleError :: snd (run evs s'))).
Proof.
  set (s := fst (run [Message 1 (audioDelta (silence 4))] initial)).
  set (m := audioDelta "AA==").
  assert (H1 : inlineData m = Some "AA=="%string) by reflexivity.
  assert (H2 : "AA=="%string <> EmptyString) by discriminate.
  assert (H3 : decodeDelta "AA==" = None) by (vm_compute; reflexivity).
  assert (H4 : interrupted m = false) by reflexivity.
  exact (conj H1 (conj H2 (conj H3 (conj H4
           (malformed_delta_skipped 2 m "AA==" s H1 H2 H3 H4))))).
Defined.


End SceneFacts.

(* ================================================================= *)
(** * Part III: the rest of the component *)

Module CaptureFacts.
Import Base64 Audio Capture Base64Facts.

Local Open Scope Q_scope.

Local Ltac Zify.zify_post_hook ::= Z.to_euclidean_division_equations.

Lemma byteOfZ_value (z : Z) :
  Z.of_N (Byte.to_N (byteOfZ z)) = (z mod 256)%Z.
Proof.
  unfold byteOfZ.
  assert (H : Byte.to_N (byte_of_ascii (ascii_of_N (Z.to_N (z mod 256))))
              = Z.to_N (z mod 256)).
  { rewrite <- (N_ascii_embedding (Z.to_N (z mod 256))) at 2 by lia.
    apply Byte.to_of_N. symmetry. apply byte_of_ascii_via_N. }
  rewrite H. lia.
Qed.

Lemma signed16_range (u : Z) :
  (0 <= u < 65536)%Z -> (-32768 <= signed16 u <= 32767)%Z.
Proof.
  intros H. unfold signed16. destruct (Z.ltb_spec u 32768); lia.
Qed.

Lemma signed16_mod (v : Z) :
  (-32768 <= v <= 32767)%Z -> signed16 (v mod 65536) = v.
Proof.
  intros H. unfold signed16.
  destruct (Z.ltb_spec (v mod 65536) 32768); lia.
Qed.

Lemma toInt16_range (x : Q) : (-32768 <= toInt16 x <= 32767)%Z.
Proof. unfold toInt16. apply signed16_range. lia. Qed.

(** Reading the bytes of an [Int16Array] back gives its elements. *)
Lemma int16Array_int16Bytes (vs : list Z) :
  Forall (fun v => (-32768 <= v <= 32767)%Z) vs ->
  int16Array (int16Bytes vs) = Some vs.
Proof.
  induction 1 as [|v vs Hv _ IH]; [reflexivity|].
  cbn [int16Bytes flat_map app int16Array].
  fold (int16Bytes vs). rewrite IH. cbn [option_map].
  rewrite !byteOfZ_value. do 2 f_equal.
  rewrite <- (signed16_mod v Hv) at 3. f_equal. lia.
Qed.

Lemma pcm16_range (data : list Q) :
  Forall (fun v => (-32768 <= v <= 32767)%Z) (pcm16 data).
Proof.
  unfold pcm16. apply Forall_forall. intros v Hv.
  apply in_map_iff in Hv. destruct Hv as [x [<- _]]. apply toInt16_range.
Qed.

Lemma every_nth_all (l : list Z) : every_nth 1 0 l = l.
Proof.
  induction l as [|x r IH]; [reflexivity|].
  cbn [every_nth Nat.sub]. now rewrite IH.
Qed.

Lemma int16Bytes_length (vs : list Z) :
  List.length (int16Bytes vs) = (2 * List.length vs)%nat.
Proof.
  induction vs as [|v vs IH]; [reflexivity|].
  cbn [int16Bytes flat_map app List.length]. fold (int16Bytes vs). lia.
Qed.

(** A mono buffer built from the bytes of int16 values has them as its
    samples, each over 32768. *)
Lemma decodeAudioData_int16Bytes (vs : list Z) (rate : Q) :
  Forall (fun v => (-32768 <= v <= 32767)%Z) vs -> vs <> [] ->
  decodeAudioData (int16Bytes vs) rate 1
  = Some {| channelData := [map (fun v => inject_Z v / 32768) vs];
            frameCount := List.length vs;
            sampleRate := rate |}.
Proof.
  intros Hr Hne. unfold decodeAudioData.
  rewrite (int16Array_int16Bytes vs Hr), Nat.div_1_r.
  assert (H0 : (List.length vs =? 0)%nat = false)
    by (destruct vs; [now elim Hne | reflexivity]).
  rewrite H0. cbn [Nat.eqb orb seq map].
  now rewrite every_nth_all, firstn_all.
Qed.

Lemma decode_encode_bytes (bytes : list byte) :
  decode (encode bytes) = Some bytes.
Proof.
  unfold decode, encode. rewrite encode_binary, atob_btoa.
  unfold fromCharCode. now rewrite list_byte_of_string_of_list_byte.
Qed.

(** X3: a non-empty capture window that is encoded by [createBlob] and
    decoded again by [decode] and [decodeAudioData] gives one channel with
    one sample per input sample: the input times 32768, stored as int16,
    over 32768. *)
Theorem capture_roundtrip (input : list Q) (rate : Q) :
  input <> [] ->
  decode (data (createBlob input)) = Some (int16Bytes (pcm16 input))
  /\ List.length (int16Bytes (pcm16 input)) = (2 * List.length input)%nat
  /\ decodeAudioData (int16Bytes (pcm16 input)) rate 1
     = Some {| channelData :=
                 [map (fun x => inject_Z (toInt16 (x * 32768)) / 32768) input];
               frameCount := List.length input;
               sampleRate := rate |}.
Proof.
  intros Hne. split; [apply decode_encode_bytes|]. split.
  - rewrite int16Bytes_length. unfold pcm16. now rewrite length_map.
  - rewrite decodeAudioData_int16Bytes.
    + unfold pcm16. now rewrite map_map, length_map.
    + apply pcm16_range.
    + unfold pcm16. destruct input; [now elim Hne | discriminate].
Qed.

Lemma capture_roundtrip_witness :
  [1 # 2; -1 # 4; 0] <> []
  /\ decodeAudioData (int16Bytes (pcm16 [1 # 2; -1 # 4; 0])) 16000 1
     = Some {| channelData :=
                 [map (fun x => inject_Z (toInt16 (x * 32768)) / 32768)
                      [1 # 2; -1 # 4; 0]];
               frameCount := 3;
               sampleRate := 16000 |}.
Proof.
  assert (H : [1 # 2; -1 # 4; 0] <> []) by discriminate.
  exact (conj H (proj2 (proj2 (capture_roundtrip [1 # 2; -1 # 4; 0] 16000 H)))).
Defined.

(** Dropping the fraction of [n / d], for the fraction [a / b] of full
    scale. *)
Lemma toInt16_scaled (a : Z) (b : positive) :
  (- Zpos b <= a < Zpos b)%Z ->
  let v := toInt16 ((a # b) * 32768) in
  (-32768 <= v <= 32767)%Z
  /\ (0 <= a -> Zpos b * v <= a * 32768 < Zpos b * v + Zpos b)%Z
  /\ (a <= 0 -> Zpos b * v - Zpos b < a * 32768 <= Zpos b * v)%Z.
Proof.
  intros H. unfold toInt16. cbn [Qmult Qnum Qden].
  rewrite Pos.mul_1_r.
  assert (Hq : (-32768 <= (a * 32768) ÷ Zpos b <= 32767)%Z) by nia.
  rewrite (signed16_mod _ Hq). split; [exact Hq|]. split; intros Ha; nia.
Qed.

(** X4: a sample within [-1, 1) is stored as int16 and read back with an
    error below 1/32768, rounded towards zero. *)
Theorem capture_quantisation (x : Q) :
  -1 <= x -> x < 1 ->
  let y := inject_Z (toInt16 (x * 32768)) / 32768 in
  Qabs (y - x) < 1 # 32768
  /\ (0 <= x -> 0 <= y <= x)
  /\ (x <= 0 -> x <= y <= 0).
Proof.
  destruct x as [a b]. intros Hlo Hhi.
  assert (H : (- Zpos b <= a < Zpos b)%Z).
  { unfold Qle, Qlt in *. cbn in *. lia. }
  destruct (toInt16_scaled a b H) as (Hr & Hpos & Hneg).
  set (v := toInt16 ((a # b) * 32768)) in *. cbn zeta.
  assert (Hy : inject_Z v / 32768 == v # 32768).
  { unfold Qeq, Qdiv, Qmult, Qinv, inject_Z. cbn. lia. }
  split; [|split].
  - apply Qabs_Qlt_condition. rewrite Hy.
    destruct (Z.le_ge_cases 0 a) as [Ha | Ha].
    + specialize (Hpos Ha). unfold Qlt, Qminus, Qplus, Qopp. cbn. nia.
    + specialize (Hneg Ha). unfold Qlt, Qminus, Qplus, Qopp. cbn. nia.
  - intros Hx. assert (Ha : (0 <= a)%Z) by (unfold Qle in Hx; cbn in Hx; lia).
    specialize (Hpos Ha). rewrite Hy. unfold Qle. cbn. nia.
  - intros Hx. assert (Ha : (a <= 0)%Z) by (unfold Qle in Hx; cbn in Hx; lia).
    specialize (Hneg Ha). rewrite Hy. unfold Qle. cbn. nia.
Qed.

Lemma capture_quantisation_witness :
  -1 <= 1 # 3 /\ 1 # 3 < 1
  /\ Qabs (inject_Z (toInt16 ((1 # 3) * 32768)) / 32768 - (1 # 3))
     < 1 # 32768.
Proof.
  assert (H1 : -1 <= 1 # 3) by discriminate.
  assert (H2 : 1 # 3 < 1) by reflexivity.
  exact (conj H1 (conj H2 (proj1 (capture_quantisation (1 # 3) H1 H2)))).
Defined.

(** X5: nothing clips a sample at or above full scale: a sample within
    [1, 2) wraps around in the int16 store and is read back two units
    lower, as a negative sample within [-1, 0). *)
Theorem capture_wraps_at_full_scale (x : Q) :
  1 <= x -> x < 2 ->
  let y := inject_Z (toInt16 (x * 32768)) / 32768 in
  -1 <= y /\ y < 0 /\ x - 2 - (1 # 32768) < y /\ y <= x - 2.
Proof.
  destruct x as [a b]. intros Hlo Hhi.
  assert (H : (Zpos b <= a < 2 * Zpos b)%Z).
  { unfold Qle, Qlt in *. cbn in *. lia. }
  cbn zeta. unfold toInt16. cbn [Qmult Qnum Qden]. rewrite Pos.mul_1_r.
  set (q := ((a * 32768) ÷ Zpos b)%Z).
  assert (Hq : (32768 <= q <= 65535)%Z) by (unfold q; nia).
  assert (Hr : (Zpos b * q <= a * 32768 < Zpos b * q + Zpos b)%Z)
    by (unfold q; nia).
  assert (Hv : signed16 (q mod 65536) = (q - 65536)%Z).
  { unfold signed16. destruct (Z.ltb_spec (q mod 65536) 32768); lia. }
  rewrite Hv.
  assert (Hy : inject_Z (q - 65536) / 32768 == (q - 65536) # 32768).
  { unfold Qeq, Qdiv, Qmult, Qinv, inject_Z. cbn. lia. }
  rewrite Hy. repeat split.
  - unfold Qle. cbn. lia.
  - unfold Qlt. cbn. lia.
  - unfold Qlt, Qminus, Qplus, Qopp. cbn. nia.
  - unfold Qle, Qminus, Qplus, Qopp. cbn. nia.
Qed.

Lemma capture_wraps_at_full_scale_witness :
  1 <= 1 /\ 1 < 2
  /\ inject_Z (toInt16 (1 * 32768)) / 32768 <= 1 - 2.
Proof.
  assert (H1 : 1 <= 1) by discriminate.
  assert (H2 : 1 < 2) by reflexivity.
  exact (conj H1 (conj H2
           (proj2 (proj2 (proj2 (capture_wraps_at_full_scale 1 H1 H2)))))).
Defined.

End CaptureFacts.

Module CodecFacts.
Import Base64 Audio Scene Base64Facts.

Local Open Scope Q_scope.

(** X1: the chunk size of [encode] does not matter: with any positive
    chunk size in place of 8192 the loop builds the same binary string, so
    the same base64 text comes out. *)
Theorem encode_any_chunk_size (size : nat) (bytes : list byte) :
  (0 < size)%nat ->
  btoa (encode_loop size (List.length bytes) bytes 0 EmptyString)
  = encode bytes.
Proof.
  intros Hsize. unfold encode. f_equal.
  rewrite (encode_loop_all size bytes Hsize) by nia.
  now rewrite encode_binary.
Qed.

Lemma encode_any_chunk_size_witness :
  (0 < 2)%nat
  /\ btoa (encode_loop 2 5 [x01; x02; x03; x04; x05] 0 EmptyString)
     = encode [x01; x02; x03; x04; x05].
Proof.
  assert (H : (0 < 2)%nat) by (repeat constructor).
  exact (conj H (encode_any_chunk_size 2 [x01; x02; x03; x04; x05] H)).
Defined.

Lemma btoa_codes_size (l : list N) :
  List.length (btoa_codes l) = (4 * ((List.length l + 2) / 3))%nat.
Proof.
  induction l as [|a|a b|a b c r IH] using list_ind3; try reflexivity.
  cbn [btoa_codes List.length]. rewrite IH.
  replace (S (S (S (List.length r))) + 2)%nat
    with (List.length r + 2 + 1 * 3)%nat by lia.
  rewrite Nat.div_add by discriminate. lia.
Qed.

Lemma length_string_of_list_ascii (l : list ascii) :
  String.length (string_of_list_ascii l) = List.length l.
Proof. induction l as [|a r IH]; cbn; [reflexivity | now rewrite IH]. Qed.

Lemma length_list_ascii_of_string (s : string) :
  List.length (list_ascii_of_string s) = String.length s.
Proof. induction s as [|a r IH]; cbn; [reflexivity | now rewrite IH]. Qed.

(** X2: the base64 text of [n] bytes has [4 * ceil(n / 3)] characters. *)
Theorem encode_length (bytes : list byte) :
  String.length (encode bytes)
  = (4 * ((List.length bytes + 2) / 3))%nat.
Proof.
  unfold encode. rewrite encode_binary. unfold btoa, string_of_codes.
  rewrite length_string_of_list_ascii, length_map, btoa_codes_size.
  unfold codes_of_string, fromCharCode, string_of_list_byte.
  now rewrite length_map, list_ascii_of_string_of_list_ascii, length_map.
Qed.

(** Bytes are read two at a time. *)
Lemma list_ind2 {A : Type} (P : list A -> Prop) :
  P [] -> (forall a, P [a]) ->
  (forall a b r, P r -> P (a :: b :: r)) ->
  forall l, P l.
Proof.
  intros H0 H1 H2. fix IH 1. intros [|a [|b r]];
    [apply H0 | apply H1 | apply H2, IH].
Qed.

Lemma signed16_small (u : Z) :
  (0 <= u < 65536)%Z -> (-32768 <= signed16 u <= 32767)%Z.
Proof.
  intros H. unfold signed16. destruct (Z.ltb_spec u 32768); lia.
Qed.

Lemma byte_value_small (b : byte) : (0 <= Z.of_N (Byte.to_N b) <= 255)%Z.
Proof. pose proof (Byte.to_N_bounded b). lia. Qed.

(** The view succeeds on an even number of bytes only, and has half as
    many elements, all of them int16 values. *)
Lemma int16Array_cases (data : list byte) :
  match int16Array data with
  | Some l =>
      List.length data = (2 * List.length l)%nat
      /\ Forall (fun v => (-32768 <= v <= 32767)%Z) l
  | None => Nat.odd (List.length data) = true
  end.
Proof.
  induction data as [|a|a b r IH] using list_ind2; cbn [int16Array].
  - split; [reflexivity | constructor].
  - reflexivity.
  - destruct (int16Array r) as [l|]; cbn [option_map List.length].
    + destruct IH as [Hlen Hall]. split; [lia|].
      constructor; [|exact Hall]. apply signed16_small.
      pose proof (byte_value_small a). pose proof (byte_value_small b). lia.
    + exact IH.
Qed.

(** X6: for one channel, [decodeAudioData] raises exactly on no bytes at
    all and on an odd number of bytes. *)
Theorem decodeAudioData_failure (data : list byte) (rate : Q) :
  decodeAudioData data rate 1 = None
  <-> data = [] \/ Nat.odd (List.length data) = true.
Proof.
  unfold decodeAudioData. pose proof (int16Array_cases data) as H.
  destruct (int16Array data) as [l|].
  - destruct H as [Hlen _]. rewrite Nat.div_1_r. cbn [Nat.eqb orb].
    assert (Hodd : Nat.odd (List.length data) = false).
    { rewrite Hlen, Nat.odd_mul. reflexivity. }
    destruct l as [|v l]; cbn [List.length Nat.eqb] in *.
    + split; [intros _|reflexivity]. left.
      now apply length_zero_iff_nil.
    + split; [discriminate|]. intros [-> | E]; [discriminate Hlen|].
      congruence.
  - split; [now right | reflexivity].
Qed.

Lemma sample_range (v : Z) :
  (-32768 <= v <= 32767)%Z -> -1 <= inject_Z v / 32768 /\ inject_Z v / 32768 < 1.
Proof.
  intros H. unfold Qle, Qlt, Qdiv, Qmult, Qinv, inject_Z. cbn. lia.
Qed.

Lemma every_nth_one (l : list Z) : every_nth 1 0 l = l.
Proof.
  induction l as [|x r IH]; [reflexivity|].
  cbn [every_nth Nat.sub]. now rewrite IH.
Qed.

Lemma decodeAudioData_mono (data : list byte) (rate : Q)
    (b : AudioBuffer) :
  decodeAudioData data rate 1 = Some b ->
  (2 * frameCount b)%nat = List.length data
  /\ (0 < frameCount b)%nat
  /\ sampleRate b = rate
  /\ duration b = inject_Z (Z.of_nat (frameCount b)) / rate
  /\ exists samples,
       channelData b = [samples]
       /\ List.length samples = frameCount b
       /\ Forall (fun x => -1 <= x /\ x < 1) samples.
Proof.
  unfold decodeAudioData. pose proof (int16Array_cases data) as H.
  destruct (int16Array data) as [l|]; [|discriminate].
  destruct H as [Hlen Hall]. rewrite Nat.div_1_r. cbn [Nat.eqb orb].
  destruct (Nat.eqb_spec (List.length l) 0) as [E | E]; [discriminate|].
  intros Hb. injection Hb as <-.
  unfold duration. cbn [frameCount sampleRate channelData seq map].
  rewrite every_nth_one, firstn_all.
  repeat split; try lia.
  exists (map (fun v => inject_Z v / 32768) l).
  split; [reflexivity|]. split; [apply length_map|].
  apply Forall_forall. intros x Hx. apply in_map_iff in Hx.
  destruct Hx as [v [<- Hv]]. apply sample_range.
  rewrite Forall_forall in Hall. now apply Hall.
Qed.

(** X7: when [decodeAudioData] succeeds on one channel, the buffer has one
    frame per two bytes and at least one, one channel with one sample per
    frame, every sample within [-1, 1), and the duration is the number of
    frames over the sample rate. *)
Theorem decodeAudioData_success (data : list byte) (rate : Q)
    (b : AudioBuffer) :
  decodeAudioData data rate 1 = Some b ->
  (2 * frameCount b)%nat = List.length data
  /\ (0 < frameCount b)%nat
  /\ sampleRate b = rate
  /\ duration b = inject_Z (Z.of_nat (frameCount b)) / rate
  /\ exists samples,
       channelData b = [samples]
       /\ List.length samples = frameCount b
       /\ Forall (fun x => -1 <= x /\ x < 1) samples.
Proof. apply decodeAudioData_mono. Qed.

Lemma decodeAudioData_success_witness :
  decodeAudioData [x00; x40] 24000 1
  = Some {| channelData := [[inject_Z 16384 / 32768]]; frameCount := 1;
            sampleRate := 24000 |}
  /\ (2 * 1)%nat = List.length [x00; x40].
Proof.
  assert (H : decodeAudioData [x00; x40] 24000 1
              = Some {| channelData := [[inject_Z 16384 / 32768]];
                        frameCount := 1; sampleRate := 24000 |})
    by reflexivity.
  exact (conj H (proj1 (decodeAudioData_success _ _ _ H))).
Defined.

(** What a payload that decodes is scheduled for. *)
Lemma decodeDelta_duration (p : string) (b : AudioBuffer) :
  decodeDelta p = Some b ->
  0 < duration b
  /\ forall bytes, decode p = Some bytes ->
                   duration b == inject_Z (Z.of_nat (List.length bytes)) / 48000.
Proof.
  unfold decodeDelta. destruct (decode p) as [data|]; [|discriminate].
  intros H. destruct (decodeAudioData_mono data 24000 b H)
    as (Hlen & Hpos & _ & Hd & _).
  rewrite Hd. split.
  - unfold Qlt, Qdiv, Qmult, Qinv, inject_Z. cbn. lia.
  - intros bytes E. injection E as <-. rewrite <- Hlen.
    unfold Qeq, Qdiv, Qmult, Qinv, inject_Z. cbn. lia.
Qed.

(** X11: an audio delta that is scheduled lasts one second per 48000
    bytes of payload, and never no time at all. *)
Theorem delta_duration (p : string) (bytes : list byte) (b : AudioBuffer) :
  decode p = Some bytes ->
  decodeDelta p = Some b ->
  0 < duration b
  /\ duration b == inject_Z (Z.of_nat (List.length bytes)) / 48000.
Proof.
  intros Hb Hd. destruct (decodeDelta_duration p b Hd) as [Hpos Hlen].
  split; [exact Hpos | now apply Hlen].
Qed.

Lemma delta_duration_witness :
  let b := {| channelData := [[0 / 32768; 0 / 32768]]; frameCount := 2;
              sampleRate := 24000 |} in
  decode "AAAAAA==" = Some [x00; x00; x00; x00]
  /\ decodeDelta "AAAAAA==" = Some b
  /\ 0 < duration b
  /\ duration b == inject_Z (Z.of_nat 4) / 48000.
Proof.
  split; [reflexivity | split; [reflexivity|]].
  exact (delta_duration "AAAAAA==" [x00; x00; x00; x00] _
           eq_refl eq_refl).
Defined.

End CodecFacts.

Module WordsFacts.
Import Base64 Audio Scene Observations SceneFacts.

Lemma splitWs_joined (l : list ascii) :
  forall cur inSep,
    List.concat (splitWs cur inSep l) = rev cur ++ filter notWhiteSpace l.
Proof.
  induction l as [|c r IH]; intros cur inSep; cbn [splitWs filter].
  - cbn. now rewrite !app_nil_r.
  - destruct (isWhiteSpace c) eqn:E.
    + assert (Hf : notWhiteSpace c = false) by (unfold notWhiteSpace; now rewrite E).
      rewrite Hf. destruct inSep; [apply IH|].
      cbn [List.concat]. now rewrite IH.
    + assert (Hf : notWhiteSpace c = true) by (unfold notWhiteSpace; now rewrite E).
      rewrite Hf, IH. cbn [rev]. now rewrite <- app_assoc.
Qed.

Lemma splitWs_clean (l : list ascii) :
  forall cur inSep,
    Forall (fun c => isWhiteSpace c = false) cur ->
    Forall (Forall (fun c => isWhiteSpace c = false)) (splitWs cur inSep l).
Proof.
  induction l as [|c r IH]; intros cur inSep Hcur; cbn [splitWs].
  - constructor; [|constructor]. now apply Forall_rev.
  - destruct (isWhiteSpace c) eqn:E.
    + destruct inSep; [now apply IH|].
      constructor; [now apply Forall_rev | apply IH; constructor].
    + apply IH. now constructor.
Qed.

Lemma joined_filter_nonempty (ll : list (list ascii)) :
  List.concat (filter (fun w => (0 <? List.length w)%nat) ll) = List.concat ll.
Proof.
  induction ll as [|w ll IH]; [reflexivity|].
  cbn [filter]. destruct w as [|c w].
  - change (0 <? List.length (@nil ascii))%nat with false. exact IH.
  - change (0 <? List.length (c :: w))%nat with true.
    cbn [List.concat]. now rewrite IH.
Qed.

Lemma trimStart_filter (l : list ascii) :
  filter notWhiteSpace (trimStart l) = filter notWhiteSpace l.
Proof.
  induction l as [|c r IH]; [reflexivity|].
  cbn [trimStart filter]. destruct (isWhiteSpace c) eqn:E.
  - assert (Hf : notWhiteSpace c = false)
      by (unfold notWhiteSpace; now rewrite E).
    now rewrite Hf.
  - reflexivity.
Qed.

Lemma trim_filter (l : list ascii) :
  filter notWhiteSpace (trim l) = filter notWhiteSpace l.
Proof.
  unfold trim.
  now rewrite filter_rev, trimStart_filter, filter_rev, rev_involutive,
    trimStart_filter.
Qed.

(** X8: the words pushed for a transcription text, put end to end, are
    the text without its white space: no other character is lost, added
    or moved. *)
Theorem newWordsOf_keeps_text (text : string) :
  List.concat (map list_ascii_of_string (newWordsOf text))
  = filter notWhiteSpace (list_ascii_of_string text).
Proof.
  unfold newWordsOf. rewrite <- (trim_filter (list_ascii_of_string text)).
  destruct (trim (list_ascii_of_string text)) as [|c r] eqn:E;
    [reflexivity|].
  rewrite map_map.
  erewrite map_ext by (intros; apply list_ascii_of_string_of_list_ascii).
  rewrite map_id, joined_filter_nonempty, splitWs_joined. reflexivity.
Qed.

(** X9: every word pushed is non-empty and holds no white space. *)
Theorem newWordsOf_words (text : string) :
  Forall (fun w => w <> EmptyString
                   /\ Forall (fun c => isWhiteSpace c = false)
                             (list_ascii_of_string w))
         (newWordsOf text).
Proof.
  unfold newWordsOf.
  destruct (trim (list_ascii_of_string text)) as [|c r]; [constructor|].
  apply Forall_forall. intros w Hw. apply in_map_iff in Hw.
  destruct Hw as [chars [<- Hin]]. apply filter_In in Hin.
  destruct Hin as [Hin Hlen].
  rewrite list_ascii_of_string_of_list_ascii. split.
  - destruct chars; [discriminate Hlen | discriminate].
  - pose proof (splitWs_clean (c :: r) [] false (Forall_nil _)) as H.
    rewrite Forall_forall in H. now apply H.
Qed.

(** The words an event of a Turn appends. *)
Lemma step_words (ev : Event) (s : State) :
  withinTurn [ev] = true ->
  turnWords (fst (step ev s))
  = turnWords s ++ flat_map newWordsOf (transcripts [ev]).
Proof.
  intros Hq. destruct ev as [t m|h|f|now id]; cbn [step transcripts flat_map].
  - cbn in Hq. rewrite andb_true_r, negb_true_iff in Hq.
    rewrite (onmessage_uninterrupted t m s Hq).
    assert (Hp : turnWords (fst (playAudio t m (fst (pushWords m s))))
                 = turnWords (fst (pushWords m s))).
    { destruct (carriesAudio m) as [b|] eqn:Hc.
      - rewrite (playAudio_carries t m b Hc). unfold schedule, resync.
        break_tests; reflexivity.
      - now destruct (playAudio_silent t m Hc (fst (pushWords m s))) as [-> _]. }
    rewrite Hp. unfold pushWords.
    destruct (outputTranscription m) as [text|]; cbn.
    + now rewrite app_nil_r.
    + now rewrite app_nil_r.
  - cbn. now rewrite app_nil_r.
  - destruct (render_schedule f s) as (_ & _ & _ & Hw & _).
    rewrite Hw. cbn. now rewrite app_nil_r.
  - discriminate Hq.
Qed.

(** X10: within a Turn (no interruption, no grace timer) the word list
    only grows, and what is added is the words of the transcription texts
    received, in arrival order. *)
Theorem words_accumulate (evs : list Event) (s : State) :
  withinTurn evs = true ->
  turnWords (fst (run evs s))
  = turnWords s ++ flat_map newWordsOf (transcripts evs).
Proof.
  revert s. induction evs as [|ev rest IH]; intros s Hq.
  - cbn. now rewrite app_nil_r.
  - apply withinTurn_cons in Hq. destruct Hq as [Hq1 Hq2].
    rewrite fst_run_cons, (IH _ Hq2), (step_words ev s Hq1).
    change (ev :: rest) with ([ev] ++ rest).
    unfold transcripts at 3. rewrite flat_map_app.
    fold (transcripts [ev]). fold (transcripts rest).
    now rewrite flat_map_app, app_assoc.
Qed.

Lemma words_accumulate_witness :
  let evs := [ Message 0 {| outputTranscription := Some "hello"%string;
                            inlineData := None; interrupted := false |};
               Frame {| clockDelta := 1 # 60; spectrum := None;
                        outputTime := 0; wallTime := 0 |};
               Message 1 {| outputTranscription :=
                              Some " world  this"%string;
                            inlineData := None; interrupted := false |} ] in
  withinTurn evs = true
  /\ turnWords (fst (run evs initial))
     = turnWords initial ++ flat_map newWordsOf (transcripts evs).
Proof.
  cbv zeta. split; [reflexivity|].
  apply words_accumulate. reflexivity.
Defined.

End WordsFacts.

Module ScheduleFacts.
Import Base64 Audio Scene Scenarios Observations SceneFacts CodecFacts.

Local Open Scope Q_scope.

Lemma carriesAudio_duration (m : LiveServerMessage) (b : AudioBuffer) :
  carriesAudio m = Some b -> 0 < duration b.
Proof.
  unfold carriesAudio. destruct (inlineData m) as [p|]; [|discriminate].
  intros H. now destruct (decodeDelta_duration p b H).
Qed.

(** The grace timer leaves the schedule alone and starts nothing. *)
Lemma timer_schedule (now : Q) (id : nat) (s : State) :
  let s' := fst (step (TimerFired now id) s) in
  nextStartTime s' = nextStartTime s
  /\ sources s' = sources s
  /\ created s' = created s
  /\ starts (snd (step (TimerFired now id) s)) = [].
Proof. handler_cases; repeat split; reflexivity. Qed.

(** What an event that is no interruption does to the schedule. *)
Lemma step_schedule (ev : Event) (s : State) :
  uninterrupted [ev] = true ->
  let s' := fst (step ev s) in
  let l := starts (snd (step ev s)) in
  (l = [] /\ nextStartTime s' = nextStartTime s)
  \/ (exists d,
        0 < d
        /\ l = [(if resyncs (timeOf ev) s then timeOf ev
                 else nextStartTime s, d)]
        /\ nextStartTime s'
           = (if resyncs (timeOf ev) s then timeOf ev
              else nextStartTime s) + d).
Proof.
  intros Hu. destruct ev as [t m|h|f|now id].
  - assert (Hq : withinTurn [Message t m] = true) by exact Hu.
    destruct (carriesEvent (Message t m)) eqn:Hc.
    + right. destruct (step_carrying _ s Hq Hc) as (d & Hl & Hn & _).
      exists d. repeat split; try assumption.
      cbn [carriesEvent] in Hc.
      destruct (carriesAudio m) as [b|] eqn:E; [|discriminate].
      pose proof (carriesAudio_duration m b E) as Hpos.
      cbn [step] in Hl.
      cbn in Hu. rewrite andb_true_r, negb_true_iff in Hu.
      rewrite (onmessage_uninterrupted t m s Hu),
        (playAudio_carries t m b E) in Hl.
      unfold schedule in Hl. cbn [snd starts flat_map app] in Hl.
      injection Hl as _ <-. exact Hpos.
    + left. destruct (step_not_carrying _ s Hq Hc) as (Hl & Hn & _). auto.
  - left. split; reflexivity.
  - left. destruct (render_schedule f s) as (Hn & _ & _ & _ & _ & _ & Hl).
    auto.
  - left. destruct (timer_schedule now id s) as (Hn & _ & _ & Hl). auto.
Qed.

Lemma uninterrupted_cons (ev : Event) (rest : list Event) :
  uninterrupted (ev :: rest) = true ->
  uninterrupted [ev] = true /\ uninterrupted rest = true.
Proof.
  unfold uninterrupted. cbn [forallb]. rewrite andb_true_r.
  apply andb_true_iff.
Qed.

Lemma messageClocks_cons (ev : Event) (rest : list Event) :
  Forall (fun t => 0 <= t) (messageClocks (ev :: rest)) ->
  0 <= timeOf ev /\ Forall (fun t => 0 <= t) (messageClocks rest).
Proof.
  destruct ev as [t m|h|f|now id]; cbn [messageClocks flat_map app timeOf];
    intros H; try (split; [discriminate | exact H]).
  now inversion_clear H.
Qed.

Lemma run_separated (evs : list Event) :
  forall s,
    uninterrupted evs = true ->
    Forall (fun t => 0 <= t) (messageClocks evs) ->
    0 <= nextStartTime s ->
    separatedFrom (nextStartTime s) (starts (snd (run evs s))).
Proof.
  induction evs as [|ev rest IH]; intros s Hu Hc Hn; [exact I|].
  apply uninterrupted_cons in Hu. destruct Hu as [Hu1 Hu2].
  apply messageClocks_cons in Hc. destruct Hc as [Ht Hc].
  rewrite snd_run_cons, starts_app.
  destruct (step_schedule ev s Hu1) as [[-> Hsame] | (d & Hd & -> & Hnext)].
  - cbn [app]. rewrite <- Hsame. apply IH; try assumption.
    now rewrite Hsame.
  - cbn [app separatedFrom].
    assert (Hw : nextStartTime s
                 <= (if resyncs (timeOf ev) s then timeOf ev
                     else nextStartTime s)).
    { destruct (resyncs (timeOf ev) s) eqn:E; [|apply Qle_refl].
      apply resyncs_cases in E. destruct E as [E | E].
      - rewrite E. exact Ht.
      - now apply Qlt_le_weak. }
    split; [exact Hw|]. rewrite <- Hnext.
    apply IH; try assumption. rewrite Hnext. lra.
Qed.

(** X12: in a run from the start with no interruption, whatever the
    arrival times, no buffer is started before the end of the buffer
    started before it: playback never overlaps. *)
Theorem buffers_never_overlap (evs : list Event) :
  uninterrupted evs = true ->
  Forall (fun t => 0 <= t) (messageClocks evs) ->
  separatedFrom 0 (starts (snd (run evs initial))).
Proof.
  intros Hu Hc. apply (run_separated evs initial Hu Hc). discriminate.
Qed.

Lemma buffers_never_overlap_witness :
  uninterrupted graceRace = true
  /\ Forall (fun t => 0 <= t) (messageClocks graceRace)
  /\ separatedFrom 0 (starts (snd (run graceRace initial))).
Proof.
  assert (H1 : uninterrupted graceRace = true) by reflexivity.
  assert (H2 : Forall (fun t => 0 <= t) (messageClocks graceRace))
    by (repeat constructor; discriminate).
  exact (conj H1 (conj H2 (buffers_never_overlap graceRace H1 H2))).
Defined.

End ScheduleFacts.

Module LiveSetFacts.
Import Base64 Audio Scene Scenarios Observations SceneFacts WordsFacts.

Local Open Scope Q_scope.

(** Effects that neither start nor stop a source keep the invariant, as
    long as the live set does not grow. *)
Lemma liveInv_quiet (s s' : State) (es new : list Effect) :
  liveInv s es ->
  NoDup (sources s') ->
  (forall h, In h (sources s') -> In h (sources s)) ->
  created s' = created s ->
  Forall (fun e => isSourceEffect e = false) new ->
  liveInv s' (es ++ new).
Proof.
  intros (Hnd & Hlive & Hstop) Hnd' Hsub Hc Hnew.
  rewrite Forall_forall in Hnew.
  assert (Hno : forall e, isSourceEffect e = true ->
                          In e (es ++ new) -> In e es).
  { intros e He Hin. apply in_app_or in Hin. destruct Hin as [Hin | Hin];
      [exact Hin|]. apply Hnew in Hin. congruence. }
  unfold liveInv. rewrite Hc. repeat split.
  - exact Hnd'.
  - now apply Hlive, Hsub.
  - destruct (Hlive h (Hsub h H)) as (_ & (w & d & Hin) & _).
    exists w, d. apply in_or_app. now left.
  - intros Hin. destruct (Hlive h (Hsub h H)) as (_ & _ & Hns).
    apply Hns. now apply Hno.
  - intros h Hin. apply Hstop. now apply Hno.
Qed.

Lemma render_effects (f : FrameInput) (s : State) :
  Forall (fun e => isSourceEffect e = false) (snd (render f s)).
Proof. handler_cases; repeat constructor. Qed.

Lemma timer_effects (now : Q) (id : nat) (s : State) :
  Forall (fun e => isSourceEffect e = false)
         (snd (step (TimerFired now id) s)).
Proof. handler_cases; repeat constructor. Qed.

Lemma timer_schedule_live (now : Q) (id : nat) (s : State) :
  sources (fst (step (TimerFired now id) s)) = sources s
  /\ created (fst (step (TimerFired now id) s)) = created s.
Proof. handler_cases; split; reflexivity. Qed.

Lemma setDelete_incl (x y : nat) (l : list nat) :
  In y (setDelete x l) -> In y l.
Proof. unfold setDelete. intros H. now apply filter_In in H. Qed.

Lemma schedule_liveInv (b : AudioBuffer) (s : State) (es : list Effect) :
  liveInv s es ->
  liveInv (fst (schedule b s)) (es ++ snd (schedule b s)).
Proof.
  intros (Hnd & Hlive & Hstop). unfold schedule. fields.
  set (c := created s).
  assert (Hfresh : ~ In c (sources s)).
  { intros Hin. destruct (Hlive c Hin) as (Hlt & _). unfold c in Hlt. lia. }
  assert (Hadd : setAdd c (sources s) = sources s ++ [c]).
  { unfold setAdd. destruct (existsb (Nat.eqb c) (sources s)) eqn:E;
      [|reflexivity].
    apply existsb_exists in E. destruct E as [y [Hy E]].
    apply Nat.eqb_eq in E. subst y. now elim Hfresh. }
  unfold liveInv. fields. rewrite Hadd. repeat split.
  - apply NoDup_app; [exact Hnd | repeat constructor; intros [] |].
    intros x Hx [<- | []]. now apply Hfresh.
  - apply in_app_or in H. destruct H as [H | [<- | []]].
    + destruct (Hlive h H) as (Hlt & _). fold c in Hlt. lia.
    + lia.
  - apply in_app_or in H. destruct H as [H | [<- | []]].
    + destruct (Hlive h H) as (_ & (w & d & Hin) & _).
      exists w, d. apply in_or_app. now left.
    + exists (nextStartTime s), (duration b). apply in_or_app. right.
      now left.
  - intros Hin. apply in_app_or in Hin.
    destruct Hin as [Hin | [Hin | []]]; [|discriminate].
    apply in_app_or in H. destruct H as [H | [<- | []]].
    + now destruct (Hlive h H) as (_ & _ & Hns).
    + apply Hstop in Hin. fold c in Hin. lia.
  - intros h Hin. apply in_app_or in Hin.
    destruct Hin as [Hin | [Hin | []]]; [|discriminate].
    apply Hstop in Hin. fold c in Hin. lia.
Qed.

Lemma resync_live (t : Q) (s : State) :
  sources (resync t s) = sources s /\ created (resync t s) = created s.
Proof. unfold resync. break_tests; split; reflexivity. Qed.

Lemma liveInv_same (s s' : State) (es : list Effect) :
  sources s' = sources s -> created s' = created s ->
  liveInv s es -> liveInv s' es.
Proof. unfold liveInv. now intros -> ->. Qed.

Lemma interrupt_liveInv (m : LiveServerMessage) (s : State)
    (es : list Effect) :
  liveInv s es ->
  liveInv (fst (interrupt m s)) (es ++ snd (interrupt m s)).
Proof.
  intros Hinv. destruct (interrupted m) eqn:Hi.
  - destruct (interrupt_reset m s Hi) as (He & Hs & _).
    assert (Hc : created (fst (interrupt m s)) = created s).
    { unfold interrupt. rewrite Hi. unfold setKineticText.
      repeat rewrite ?fst_andThen. cbn [update perform fst].
      match goal with |- context [stopEach ?l ?x] =>
        rewrite (stopEach_state l x) end.
      reflexivity. }
    destruct Hinv as (Hnd & Hlive & Hstop).
    unfold liveInv. rewrite Hs, Hc, He. repeat split.
    + constructor.
    + destruct H.
    + destruct H.
    + destruct H.
    + intros h Hin. apply in_app_or in Hin.
      destruct Hin as [Hin | [Hin | Hin]]; [now apply Hstop | discriminate|].
      apply in_map_iff in Hin. destruct Hin as [x [E Hx]].
      injection E as ->. now destruct (Hlive h Hx).
  - unfold interrupt. rewrite Hi. cbn [skip fst snd].
    now rewrite app_nil_r.
Qed.

Lemma onmessage_liveInv (t : Q) (m : LiveServerMessage) (s : State)
    (es : list Effect) :
  liveInv s es ->
  liveInv (fst (onmessage t m s)) (es ++ snd (onmessage t m s)).
Proof.
  intros Hinv. unfold onmessage.
  rewrite !fst_andThen, !snd_andThen.
  destruct (pushWords_only_words m s) as [ws E]. rewrite E.
  cbn [fst snd app]. set (s0 := set_turnWords _ s).
  assert (H0 : liveInv s0 es) by exact Hinv.
  assert (H1 : liveInv (fst (playAudio t m s0))
                       (es ++ snd (playAudio t m s0))).
  { destruct (carriesAudio m) as [b|] eqn:Hc.
    - rewrite (playAudio_carries t m b Hc). apply schedule_liveInv.
      destruct (resync_live t s0) as [Hs Hcr].
      now apply (liveInv_same s0).
    - destruct (playAudio_silent t m Hc s0) as [-> Hl].
      destruct Hinv as (Hnd & _).
      apply (liveInv_quiet s0); auto.
      destruct Hl as [-> | ->]; repeat constructor. }
  rewrite app_assoc. now apply interrupt_liveInv.
Qed.

Lemma step_liveInv (ev : Event) (s : State) (es : list Effect) :
  liveInv s es -> liveInv (fst (step ev s)) (es ++ snd (step ev s)).
Proof.
  intros Hinv. destruct ev as [t m|h|f|now id].
  - now apply onmessage_liveInv.
  - cbn [step update fst snd]. rewrite app_nil_r.
    destruct Hinv as (Hnd & Hlive & Hstop).
    unfold liveInv. fields. repeat split.
    + unfold setDelete. now apply NoDup_filter.
    + now destruct (Hlive h0 (setDelete_incl _ _ _ H)).
    + now destruct (Hlive h0 (setDelete_incl _ _ _ H)).
    + now destruct (Hlive h0 (setDelete_incl _ _ _ H)).
    + exact Hstop.
  - destruct (render_schedule f s) as (_ & _ & _ & _ & Hs & Hc & _).
    cbn [step]. destruct Hinv as (Hnd & Hrest).
    apply (liveInv_quiet s); try assumption.
    + split; assumption.
    + now rewrite Hs.
    + now rewrite Hs.
    + apply render_effects.
  - destruct (timer_schedule_live now id s) as (Hs & Hc).
    destruct Hinv as (Hnd & Hrest).
    apply (liveInv_quiet s); try assumption.
    + split; assumption.
    + now rewrite Hs.
    + now rewrite Hs.
    + apply timer_effects.
Qed.

Lemma run_liveInv (evs : list Event) :
  forall s es,
    liveInv s es -> liveInv (fst (run evs s)) (es ++ snd (run evs s)).
Proof.
  induction evs as [|ev rest IH]; intros s es Hinv.
  - cbn. now rewrite app_nil_r.
  - rewrite fst_run_cons, snd_run_cons, app_assoc.
    now apply IH, step_liveInv.
Qed.

(** X14: at any point of any run, the live set holds no source twice, and
    every source in it has been created and started and has not been
    stopped. *)
Theorem live_set_sound (evs : list Event) :
  let s := fst (run evs initial) in
  let es := snd (run evs initial) in
  NoDup (sources s)
  /\ forall h, In h (sources s) ->
               (h < created s)%nat
               /\ (exists w d, In (Start h w d) es)
               /\ ~ In (Stop h) es.
Proof.
  assert (H0 : liveInv initial []).
  { unfold liveInv. cbn. split; [constructor | split; intros h []]. }
  destruct (run_liveInv evs initial [] H0) as (Hnd & Hlive & _).
  cbn [app] in Hlive. split; assumption.
Qed.

(** X15: the audio delta that follows an interruption opens a Turn of its
    own: whatever the state before, the buffer starts at the current
    output clock, which is also the start of the Turn, the accumulated
    duration is that of the buffer alone, the words are those of the
    message alone, and the buffer is the only live source. *)
Theorem turn_after_interruption (t1 t2 : Q) (m1 m2 : LiveServerMessage)
    (b : AudioBuffer) (s : State) :
  interrupted m1 = true ->
  interrupted m2 = false ->
  carriesAudio m2 = Some b ->
  let s1 := fst (onmessage t1 m1 s) in
  let s2 := fst (onmessage t2 m2 s1) in
  snd (onmessage t2 m2 s1) = [Start (created s1) t2 (duration b)]
  /\ turnStartTime s2 = t2
  /\ nextStartTime s2 = t2 + duration b
  /\ turnAudioDuration s2 = 0 + duration b
  /\ sources s2 = [created s1]
  /\ turnWords s2 = flat_map newWordsOf (transcripts [Message t2 m2]).
Proof.
  intros Hi1 Hi2 Hc. cbn zeta.
  assert (Hreset : let s1 := fst (onmessage t1 m1 s) in
                   sources s1 = [] /\ turnWords s1 = []
                   /\ turnAudioDuration s1 = 0 /\ nextStartTime s1 = 0).
  { unfold onmessage. rewrite !fst_andThen.
    destruct (interrupt_reset m1
                (fst (playAudio t1 m1 (fst (pushWords m1 s)))) Hi1)
      as (_ & H1 & H2 & _ & H4 & H5 & _). auto. }
  set (s1 := fst (onmessage t1 m1 s)) in *.
  destruct Hreset as (Hs & Hw & Hd & Hn).
  assert (Hq : withinTurn [Message t2 m2] = true).
  { cbn. now rewrite Hi2. }
  split; [|split; [|split; [|split; [|split]]]].
  6: { change (onmessage t2 m2 s1) with (step (Message t2 m2) s1).
       now rewrite (step_words _ s1 Hq), Hw. }
  all: rewrite (onmessage_uninterrupted t2 m2 s1 Hi2),
         (playAudio_carries t2 m2 b Hc);
       destruct (pushWords_schedule m2 s1) as (Hn0 & _ & Hd0 & Hs0 & Hc0);
       set (s0 := fst (pushWords m2 s1)) in *;
       unfold schedule, resync, resyncs;
       rewrite Hn0, Hd0, Hn, Hd;
       change (Qeq_bool 0 0) with true; cbn [orb]; fields;
       rewrite ?Hc0, ?Hs0, ?Hs, ?Hn0, ?Hd0, ?Hn, ?Hd; reflexivity.
Qed.

Lemma turn_after_interruption_witness :
  let s := fst (run [Message 1 (audioDelta (silence 4))] initial) in
  let s1 := fst (onmessage 2 bargeIn s) in
  let s2 := fst (onmessage 3 (audioDelta (silence 4)) s1) in
  interrupted bargeIn = true
  /\ interrupted (audioDelta (silence 4)) = false
  /\ carriesAudio (audioDelta (silence 4)) = Some twoSamples
  /\ turnStartTime s2 = 3
  /\ nextStartTime s2 = 3 + duration twoSamples.
Proof.
  set (s := fst (run [Message 1 (audioDelta (silence 4))] initial)).
  assert (H1 : interrupted bargeIn = true) by reflexivity.
  assert (H2 : interrupted (audioDelta (silence 4)) = false) by reflexivity.
  assert (H3 : carriesAudio (audioDelta (silence 4)) = Some twoSamples)
    by reflexivity.
  pose proof (turn_after_interruption 2 3 bargeIn (audioDelta (silence 4))
                twoSamples s H1 H2 H3) as (_ & Ha & Hb & _).
  exact (conj H1 (conj H2 (conj H3 (conj Ha Hb)))).
Defined.

(** X16: a server message, whatever it carries, changes neither the
    smoothed volume, nor the was-playing flag, nor the timer reference, nor
    the pending timers: an interruption does not cancel a pending grace
    timer. *)
Theorem message_leaves_frame_state (t : Q) (m : LiveServerMessage)
    (s : State) :
  let s' := fst (onmessage t m s) in
  uVolume s' = uVolume s
  /\ aiWasPlaying s' = aiWasPlaying s
  /\ clearTextTimeout s' = clearTextTimeout s
  /\ timers s' = timers s.
Proof.
  destruct (onmessage_sameFrameState t m s) as (H1 & H2 & H3 & H4 & _).
  repeat split; assumption.
Qed.

(** X17: an animation frame changes neither the schedule, nor the Turn
    timing, nor the words, nor the live set, and neither starts nor stops
    a source. *)
Theorem frame_leaves_schedule (f : FrameInput) (s : State) :
  let s' := fst (render f s) in
  nextStartTime s' = nextStartTime s
  /\ turnStartTime s' = turnStartTime s
  /\ turnAudioDuration s' = turnAudioDuration s
  /\ turnWords s' = turnWords s
  /\ sources s' = sources s
  /\ Forall (fun e => isSourceEffect e = false) (snd (render f s)).
Proof.
  destruct (render_schedule f s) as (H1 & H2 & H3 & H4 & H5 & _).
  repeat (split; [assumption|]). apply render_effects.
Qed.

End LiveSetFacts.

Module CaptionFacts.
Import Base64 Audio Scene Scenarios Observations Overlay SceneFacts.

Local Open Scope Z_scope.

Lemma captionAt_words (ws : list string) (a : Z) :
  0 <= a ->
  words (captionAt ws a) = firstn 5 (skipn (5 * Z.to_nat (a / 5)) ws)
  /\ activeIndex (captionAt ws a) = a mod 5.
Proof.
  intros Ha. unfold captionAt, slice, CHUNK_SIZE. cbn [words activeIndex].
  split.
  - f_equal; [|f_equal]; lia.
  - apply Z.rem_mod_nonneg; lia.
Qed.

(** The chunk of a word of the list is well formed and shows that word as
    the active one. *)
Lemma captionAt_sound (ws : list string) (a : Z) :
  0 <= a < Z.of_nat (List.length ws) ->
  wellFormed (captionAt ws a)
  /\ nth_error (words (captionAt ws a))
               (Z.to_nat (activeIndex (captionAt ws a)))
     = nth_error ws (Z.to_nat a).
Proof.
  intros Ha. destruct (captionAt_words ws a (proj1 Ha)) as [Hw Hi].
  unfold wellFormed. rewrite Hw, Hi.
  assert (Hdiv : a = 5 * (a / 5) + a mod 5) by (apply Z.div_mod; lia).
  assert (Hmod : 0 <= a mod 5 < 5) by (apply Z.mod_pos_bound; lia).
  assert (Hq : 0 <= a / 5) by (apply Z.div_pos; lia).
  split.
  - right. rewrite length_firstn, length_skipn. split; lia.
  - rewrite nth_error_firstn.
    destruct (Nat.ltb_spec (Z.to_nat (a mod 5)) 5) as [_ | Hge]; [|lia].
    rewrite nth_error_skipn. f_equal. lia.
Qed.

(** X18: the caption built for word [a] of a word list has at most five
    words, its active index points inside it, and the word it marks active
    is word [a] of the list. *)
Theorem caption_shows_the_word (ws : list string) (a : Z) :
  0 <= a < Z.of_nat (List.length ws) ->
  let c := captionAt ws a in
  (List.length (words c) <= 5)%nat
  /\ 0 <= activeIndex c < Z.of_nat (List.length (words c))
  /\ nth_error (words c) (Z.to_nat (activeIndex c))
     = nth_error ws (Z.to_nat a).
Proof.
  intros Ha. destruct (captionAt_sound ws a Ha) as [Hwf Hnth].
  cbn zeta. destruct Hwf as [[Hnil Hneg] | [Hidx Hlen]].
  - destruct (captionAt_words ws a (proj1 Ha)) as [_ Hi].
    rewrite Hi in Hneg. pose proof (Z.mod_pos_bound a 5). lia.
  - repeat split; try assumption; lia.
Qed.

Lemma caption_shows_the_word_witness :
  let ws := ["a"; "b"; "c"; "d"; "e"; "f"; "g"]%string in
  0 <= 6 < Z.of_nat (List.length ws)
  /\ nth_error (words (captionAt ws 6))
               (Z.to_nat (activeIndex (captionAt ws 6)))
     = nth_error ws (Z.to_nat 6).
Proof.
  set (ws := ["a"; "b"; "c"; "d"; "e"; "f"; "g"]%string).
  assert (H : 0 <= 6 < Z.of_nat (List.length ws)) by (cbn; lia).
  exact (conj H (proj2 (proj2 (caption_shows_the_word ws 6 H)))).
Defined.

Lemma captionsOf_app (es1 es2 : list Effect) :
  captionsOf (es1 ++ es2) = captionsOf es1 ++ captionsOf es2.
Proof. apply flat_map_app. Qed.

Lemma captionStep_then (s s1 s2 : State) (e1 e2 : list Effect) :
  captionStep s s1 e1 ->
  kineticText s2 = kineticText s1 -> captionsOf e2 = [] ->
  captionStep s s2 (e1 ++ e2).
Proof.
  intros [[Hk He] | (c & Hc & Hk & He)] Hk2 He2; unfold captionStep;
    rewrite captionsOf_app, He, He2, Hk2.
  - now left.
  - right. exists c. auto.
Qed.

Lemma captionStep_after (s s1 s2 : State) (e1 e2 : list Effect) :
  kineticText s1 = kineticText s -> captionsOf e1 = [] ->
  captionStep s1 s2 e2 ->
  captionStep s s2 (e1 ++ e2).
Proof.
  intros Hk1 He1 [[Hk He] | (c & Hc & Hk & He)]; unfold captionStep;
    rewrite captionsOf_app, He1, He; cbn [app].
  - left. split; [congruence | reflexivity].
  - right. exists c. auto.
Qed.

Lemma showWord_step (a : Z) (s : State) :
  0 <= a < Z.of_nat (List.length (turnWords s)) ->
  captionStep s (fst (showWord a s)) (snd (showWord a s)).
Proof.
  intros Ha. destruct (String.eqb (keyAt a) (previousStateKey s)) eqn:K.
  - rewrite (showWord_same a s K). now left.
  - rewrite (showWord_new a s K). right.
    exists (captionAt (turnWords s) a).
    split; [now apply captionAt_sound | split; reflexivity].
Qed.

Lemma paceCaption_step (t : Q) (s : State) :
  captionStep s (fst (paceCaption t s)) (snd (paceCaption t s)).
Proof.
  unfold paceCaption.
  destruct (Qltb 0 (turnAudioDuration s)); cbn [andb]; [|now left].
  destruct (Nat.ltb_spec 0 (List.length (turnWords s))) as [Hn|]; [|now left].
  destruct (Z.leb_spec 0 (activeWordAbsolute s t)); [|now left].
  apply showWord_step.
  pose proof (activeWordAbsolute_range s t Hn). lia.
Qed.

Lemma risingEdge_caption (s : State) :
  kineticText (fst (risingEdge s)) = kineticText s
  /\ captionsOf (snd (risingEdge s)) = [].
Proof.
  unfold risingEdge, andThen, update, perform.
  break_tests; split; reflexivity.
Qed.

Lemma fallingEdge_step (now : Q) (s : State) :
  captionStep s (fst (fallingEdge now s)) (snd (fallingEdge now s)).
Proof.
  unfold fallingEdge.
  rewrite !fst_andThen, !snd_andThen. cbn [update perform fst snd app].
  set (s0 := set_aiWasPlaying false s).
  rewrite app_nil_r.
  change (SetStatus "Listening..." :: ?l) with ([SetStatus "Listening..."] ++ l).
  apply (captionStep_after s s0); [reflexivity | reflexivity|].
  destruct (turnWords s0) as [|w ws] eqn:E.
  - now left.
  - set (a := Z.of_nat (List.length (w :: ws)) - 1).
    assert (Ha : 0 <= a < Z.of_nat (List.length (turnWords s0))).
    { rewrite E. unfold a. cbn [List.length]. lia. }
    pose proof (showWord_step a s0 Ha) as H.
    destruct H as [[Hk He] | (c & Hc & Hk & He)].
    + left. fields. auto.
    + right. exists c. fields. auto.
Qed.

Lemma render_step (f : FrameInput) (s : State) :
  captionStep s (fst (render f s)) (snd (render f s)).
Proof.
  set (s0 := set_uVolume (frameVolume f s) s).
  assert (H0 : kineticText s0 = kineticText s) by reflexivity.
  destruct (sources s) as [|x xs] eqn:Hs.
  - destruct (aiWasPlaying s) eqn:Ha.
    + rewrite (render_falling f s Hs Ha). fold s0.
      rewrite <- (app_nil_l (snd (fallingEdge (wallTime f) s0))).
      apply (captionStep_after s s0); [exact H0 | reflexivity|].
      apply fallingEdge_step.
    + rewrite (render_idle f s Hs Ha). now left.
  - rewrite render_playing by (rewrite Hs; discriminate). fold s0.
    rewrite fst_andThen, snd_andThen.
    destruct (risingEdge_caption (fst (paceCaption (outputTime f) s0)))
      as [Hk He].
    apply (captionStep_then s (fst (paceCaption (outputTime f) s0)));
      [|exact Hk | exact He].
    rewrite <- (app_nil_l (snd (paceCaption (outputTime f) s0))).
    apply (captionStep_after s s0); [exact H0 | reflexivity|].
    apply paceCaption_step.
Qed.

Lemma noCaption_wellFormed : wellFormed noCaption.
Proof. left. split; reflexivity. Qed.

Lemma captionsOf_stops (l : list nat) : captionsOf (map Stop l) = [].
Proof. induction l as [|h r IH]; [reflexivity | exact IH]. Qed.

Lemma onmessage_step (t : Q) (m : LiveServerMessage) (s : State) :
  captionStep s (fst (onmessage t m s)) (snd (onmessage t m s)).
Proof.
  unfold onmessage. rewrite !fst_andThen, !snd_andThen.
  destruct (pushWords_only_words m s) as [ws E]. rewrite E.
  cbn [fst snd app]. set (s0 := set_turnWords _ s).
  set (s1 := fst (playAudio t m s0)). set (e1 := snd (playAudio t m s0)).
  assert (H1 : kineticText s1 = kineticText s /\ captionsOf e1 = []).
  { unfold s1, e1. destruct (carriesAudio m) as [b|] eqn:Hc.
    - rewrite (playAudio_carries t m b Hc). unfold schedule, resync.
      break_tests; split; reflexivity.
    - destruct (playAudio_silent t m Hc s0) as [-> Hl].
      split; [reflexivity|]. destruct Hl as [-> | ->]; reflexivity. }
  destruct H1 as [Hk1 He1].
  apply (captionStep_after s s1); [exact Hk1 | exact He1|].
  destruct (interrupted m) eqn:Hi.
  - destruct (interrupt_reset m s1 Hi) as (He & _ & _ & _ & _ & _ & _ & Hk).
    right. exists noCaption. split; [apply noCaption_wellFormed|].
    split; [exact Hk|]. rewrite He.
    change (captionsOf (SetKineticText noCaption :: map Stop (sources s1)))
      with (noCaption :: captionsOf (map Stop (sources s1))).
    now rewrite captionsOf_stops.
  - unfold interrupt. rewrite Hi. now left.
Qed.

Lemma timer_step (now : Q) (id : nat) (s : State) :
  captionStep s (fst (step (TimerFired now id) s))
              (snd (step (TimerFired now id) s)).
Proof.
  cbn [step]. destruct (dueOf id s) as [due|]; [|now left].
  destruct (Qle_bool due now); [|now left].
  unfold andThen, update, clearText. cbn [fst]. fields.
  destruct (sources s); [|now left].
  right. exists noCaption. split; [apply noCaption_wellFormed|].
  split; reflexivity.
Qed.

Lemma step_captionStep (ev : Event) (s : State) :
  captionStep s (fst (step ev s)) (snd (step ev s)).
Proof.
  destruct ev as [t m|h|f|now id].
  - apply onmessage_step.
  - now left.
  - apply render_step.
  - apply timer_step.
Qed.

Lemma run_wellFormed (evs : list Event) :
  forall s,
    wellFormed (kineticText s) ->
    wellFormed (kineticText (fst (run evs s)))
    /\ Forall wellFormed (captionsOf (snd (run evs s))).
Proof.
  induction evs as [|ev rest IH]; intros s Hwf.
  - split; [exact Hwf | constructor].
  - rewrite fst_run_cons, snd_run_cons, captionsOf_app.
    destruct (step_captionStep ev s) as [[Hk He] | (c & Hc & Hk & He)].
    + rewrite He. cbn [app]. apply IH. now rewrite Hk.
    + rewrite He. cbn [app]. destruct (IH (fst (step ev s))) as [H1 H2].
      * now rewrite Hk.
      * split; [exact H1 | now constructor].
Qed.

(** X19: at any point of any run, the caption shown is either empty with
    index -1, or has at most five words and an active index that points
    at one of them; so is every caption ever passed to [setKineticText]. *)
Theorem captions_well_formed (evs : list Event) :
  let c := kineticText (fst (run evs initial)) in
  ((words c = [] /\ activeIndex c = -1)
   \/ (0 <= activeIndex c < Z.of_nat (List.length (words c))
       /\ (List.length (words c) <= 5)%nat))
  /\ Forall wellFormed (captionsOf (snd (run evs initial))).
Proof. apply run_wellFormed. apply noCaption_wellFormed. Qed.

Lemma spans_upcoming (ws : list string) :
  forall i a, a < i -> spans i ws a = map (fun w => (w, Upcoming)) ws.
Proof.
  induction ws as [|w r IH]; intros i a Hlt; [reflexivity|].
  cbn [spans map]. rewrite IH by lia. unfold styleOf.
  destruct (Z.eqb_spec i a); [lia|]. destruct (Z.ltb_spec i a); [lia|].
  reflexivity.
Qed.

Lemma spans_active (ws : list string) :
  forall i a,
    i <= a < i + Z.of_nat (List.length ws) ->
    exists before w after,
      ws = before ++ w :: after
      /\ List.length before = Z.to_nat (a - i)
      /\ spans i ws a
         = map (fun x => (x, Spoken)) before
           ++ (w, Active) :: map (fun x => (x, Upcoming)) after.
Proof.
  induction ws as [|w r IH]; intros i a Ha; [cbn in Ha; lia|].
  cbn [spans]. unfold styleOf. destruct (Z.eqb_spec i a) as [-> | Hne].
  - exists [], w, r. rewrite spans_upcoming by lia.
    repeat split. cbn. lia.
  - destruct (Z.ltb_spec i a); [|lia].
    destruct (IH (i + 1) a) as (before & x & after & Hws & Hlen & Hsp).
    { cbn [List.length] in Ha. lia. }
    exists (w :: before), x, after. rewrite Hsp, Hws.
    repeat split. cbn [List.length]. lia.
Qed.

(** X20: at any point of any run, either the overlay is not drawn and the
    caption has no words, or exactly one word is drawn active, the words
    before it are drawn spoken and the words after it upcoming. *)
Theorem overlay_marks_one_word (evs : list Event) :
  let c := kineticText (fst (run evs initial)) in
  match overlay c with
  | None => words c = []
  | Some drawn =>
      exists before w after,
        words c = before ++ w :: after
        /\ List.length before = Z.to_nat (activeIndex c)
        /\ drawn
           = map (fun x => (x, Spoken)) before
             ++ (w, Active) :: map (fun x => (x, Upcoming)) after
  end.
Proof.
  destruct (run_wellFormed evs initial noCaption_wellFormed) as [Hwf _].
  cbn zeta. set (c := kineticText (fst (run evs initial))) in *.
  unfold overlay. destruct (words c) as [|w0 ws] eqn:E; [reflexivity|].
  destruct Hwf as [[Hnil _] | [Hidx _]]; [congruence|].
  rewrite E in Hidx.
  destruct (spans_active (w0 :: ws) 0 (activeIndex c))
    as (before & w & after & Hws & Hlen & Hsp); [lia|].
  exists before, w, after. rewrite Hsp, <- Hws.
  repeat split. rewrite Hlen. f_equal. lia.
Qed.

Lemma paceCaption_fields (t : Q) (s : State) :
  let s' := fst (paceCaption t s) in
  turnWords s' = turnWords s
  /\ turnStartTime s' = turnStartTime s
  /\ turnAudioDuration s' = turnAudioDuration s
  /\ sources s' = sources s.
Proof.
  unfold paceCaption, showWord, setKineticText, andThen, update, perform.
  break_tests; repeat split.
Qed.

Lemma risingEdge_fields (s : State) :
  let s' := fst (risingEdge s) in
  turnWords s' = turnWords s
  /\ turnStartTime s' = turnStartTime s
  /\ turnAudioDuration s' = turnAudioDuration s
  /\ sources s' = sources s
  /\ previousStateKey s' = previousStateKey s.
Proof.
  unfold risingEdge, andThen, update, perform.
  break_tests; repeat split.
Qed.

(** After the caption has been paced, the key of the word it computed is
    the one remembered. *)
Lemma paceCaption_key (t : Q) (s : State) :
  (0 < turnAudioDuration s)%Q -> turnWords s <> [] ->
  previousStateKey (fst (paceCaption t s)) = keyAt (activeWordAbsolute s t).
Proof.
  intros Hd Hw. rewrite (paceCaption_shows t s Hd Hw).
  destruct (String.eqb (keyAt (activeWordAbsolute s t)) (previousStateKey s))
    eqn:K.
  - rewrite (showWord_same _ s K). apply String.eqb_eq in K. now symmetry.
  - rewrite (showWord_new _ s K). reflexivity.
Qed.

Lemma activeWordAbsolute_fields (s s' : State) (t : Q) :
  turnWords s' = turnWords s -> turnStartTime s' = turnStartTime s ->
  turnAudioDuration s' = turnAudioDuration s ->
  activeWordAbsolute s' t = activeWordAbsolute s t.
Proof. unfold activeWordAbsolute. now intros -> -> ->. Qed.

(** X21: redundant updates are suppressed: while a source is live, a
    second frame at the same output clock, with no event in between, does
    not update the caption. *)
Theorem repeated_frame_is_silent (f1 f2 : FrameInput) (s : State) :
  sources s <> [] ->
  outputTime f2 = outputTime f1 ->
  captionsOf (snd (render f2 (fst (render f1 s)))) = [].
Proof.
  intros Hs Ht. set (t := outputTime f1) in *.
  rewrite (render_playing f1 s Hs), fst_andThen. fold t.
  set (s0 := set_uVolume (frameVolume f1 s) s).
  set (sp := fst (paceCaption t s0)).
  set (s1 := fst (risingEdge sp)).
  destruct (paceCaption_fields t s0) as (Hw0 & Ht0 & Hd0 & Hs0).
  destruct (risingEdge_fields sp) as (Hw1 & Ht1 & Hd1 & Hs1 & Hk1).
  fold sp in Hw0, Ht0, Hd0, Hs0. fold s1 in Hw1, Ht1, Hd1, Hs1, Hk1.
  assert (Hlive : sources s1 <> []) by (rewrite Hs1, Hs0; exact Hs).
  rewrite (render_playing f2 s1 Hlive), snd_andThen, Ht, captionsOf_app.
  set (s2 := set_uVolume (frameVolume f2 s1) s1).
  destruct (risingEdge_caption (fst (paceCaption t s2))) as [_ ->].
  rewrite app_nil_r.
  assert (Hsame : activeWordAbsolute s2 t = activeWordAbsolute s0 t).
  { apply activeWordAbsolute_fields; unfold s2; fields; congruence. }
  destruct (Qltb 0 (turnAudioDuration s0)) eqn:Hd.
  - destruct (turnWords s0) as [|w ws] eqn:Hw.
    + unfold paceCaption.
      assert (E : turnWords s2 = []) by (unfold s2; fields; congruence).
      rewrite E. cbn [List.length Nat.ltb Nat.leb andb].
      now rewrite andb_false_r.
    + assert (Hdq : (0 < turnAudioDuration s0)%Q) by now apply Qltb_lt.
      assert (Hne : turnWords s0 <> []) by (rewrite Hw; discriminate).
      pose proof (paceCaption_key t s0 Hdq Hne) as Hkey. fold sp in Hkey.
      rewrite paceCaption_shows.
      * rewrite Hsame, showWord_same; [reflexivity|].
        apply String.eqb_eq. unfold s2. fields. congruence.
      * unfold s2. fields. rewrite Hd1, Hd0. exact Hdq.
      * unfold s2. fields. rewrite Hw1, Hw0. discriminate.
  - unfold paceCaption.
    assert (E : turnAudioDuration s2 = turnAudioDuration s0)
      by (unfold s2; fields; congruence).
    rewrite E, Hd. reflexivity.
Qed.

Lemma repeated_frame_is_silent_witness :
  let s := fst (run (firstn 1 slowingTurn) initial) in
  sources s <> []
  /\ outputTime (frameAt (12 # 10)) = outputTime (frameAt (12 # 10))
  /\ captionsOf (snd (render (frameAt (12 # 10))
                        (fst (render (frameAt (12 # 10)) s)))) = [].
Proof.
  set (s := fst (run (firstn 1 slowingTurn) initial)).
  assert (H1 : sources s <> []) by (vm_compute; discriminate).
  exact (conj H1 (conj eq_refl
           (repeated_frame_is_silent (frameAt (12 # 10)) (frameAt (12 # 10))
              s H1 eq_refl))).
Defined.

End CaptionFacts.

Module FrameFacts.
Import Base64 Audio Scene Scenarios Observations SceneFacts.

Local Open Scope Q_scope.

Lemma unit_clamp (x : Q) :
  (x <= 0 -> Qmin 1 (Qmax 0 x) == 0)
  /\ (0 <= x -> x <= 1 -> Qmin 1 (Qmax 0 x) == x)
  /\ (1 <= x -> Qmin 1 (Qmax 0 x) == 1).
Proof.
  destruct (Q.max_spec 0 x) as [[H1 E1] | [H1 E1]];
    destruct (Q.min_spec 1 (Qmax 0 x)) as [[H2 E2] | [H2 E2]];
    (split; [intros | split; intros]); lra.
Qed.

(** X22: the raw volume of a frame is 0 when there is no analyser or when
    the mean of the spectrum is at most the noise gate 3, 1 when the mean
    is at least the ceiling 60, and linear in the mean in between. *)
Theorem noise_gate_and_ceiling (dataArray : list byte) :
  let avg := byteSum dataArray / inject_Z (Z.of_nat (List.length dataArray)) in
  currentVolumeOf None = 0
  /\ (avg <= 3 -> currentVolumeOf (Some dataArray) = 0)
  /\ (3 < avg -> avg <= 60 ->
      currentVolumeOf (Some dataArray) == (avg - 3) / 57)
  /\ (60 <= avg -> currentVolumeOf (Some dataArray) == 1).
Proof.
  cbn zeta. unfold currentVolumeOf, noiseGate, maxVol.
  set (avg := byteSum dataArray / _).
  assert (Hx : (avg - 3) / (60 - 3) == (avg - 3) / 57) by reflexivity.
  assert (Hy : (avg - 3) / (60 - 3) == (avg - 3) * (1 # 57)) by reflexivity.
  destruct (unit_clamp ((avg - 3) / (60 - 3))) as (_ & Hmid & Hhi).
  split; [reflexivity|]. destruct (Qltb 3 avg) eqn:E.
  - apply Qltb_lt in E. split; [intros; lra|]. split.
    + intros _ Hle. rewrite Hmid; [exact Hx | rewrite Hy; lra ..].
    + intros Hge. apply Hhi. rewrite Hy. lra.
  - apply Qltb_ge in E. split; [reflexivity|]. split; intros; lra.
Qed.

Lemma frame_delta (f : FrameInput) :
  0 <= clockDelta f ->
  0 <= Qmin (clockDelta f) (1 # 10)
  /\ Qmin (clockDelta f) (1 # 10) <= 1 # 10
  /\ Qmin (clockDelta f) (1 # 10) <= clockDelta f.
Proof.
  intros H. repeat split.
  - apply Q.min_glb; [exact H | discriminate].
  - apply Q.le_min_r.
  - apply Q.le_min_l.
Qed.

(** X23: a frame moves the smoothed volume towards the raw volume of the
    frame and never away from it; on the way down it never passes the raw
    volume, whatever the time since the last frame; on the way up it does
    not pass it when that time is at most 1/16 s. *)
Theorem smoothing_moves_toward_target (f : FrameInput) (s : State) :
  0 <= clockDelta f ->
  let v := uVolume s in
  let c := currentVolumeOf (spectrum f) in
  let v' := uVolume (fst (render f s)) in
  (c <= v -> c <= v' /\ v' <= v)
  /\ (v <= c -> v <= v' /\ (clockDelta f <= 1 # 16 -> v' <= c)).
Proof.
  intros Hd. destruct (frame_delta f Hd) as (H0 & H1 & H2). cbn zeta.
  change (render f s) with (step (Frame f) s). rewrite step_uVolume.
  unfold smoothVolume.
  set (d := Qmin (clockDelta f) (1 # 10)) in *.
  set (v := uVolume s). set (c := currentVolumeOf (spectrum f)).
  destruct (Qltb v c) eqn:E.
  - apply Qltb_lt in E. split; [intros; lra|].
    intros _. split; [nra|]. intros Hs. nra.
  - apply Qltb_ge in E. split.
    + intros _. split; nra.
    + intros Hle. assert (Hvc : v == c) by lra. split; [nra|].
      intros _. nra.
Qed.

Lemma smoothing_moves_toward_target_witness :
  0 <= clockDelta loudSlowFrame
  /\ (uVolume initial <= currentVolumeOf (spectrum loudSlowFrame) ->
      uVolume initial <= uVolume (fst (render loudSlowFrame initial))
      /\ (clockDelta loudSlowFrame <= 1 # 16 ->
          uVolume (fst (render loudSlowFrame initial))
          <= currentVolumeOf (spectrum loudSlowFrame))).
Proof.
  assert (H : 0 <= clockDelta loudSlowFrame) by discriminate.
  exact (conj H (proj2 (smoothing_moves_toward_target loudSlowFrame initial H))).
Defined.

(** X24: at any point of any run at most one grace timer is pending; it
    is the one whose id [clearTextTimeoutRef] holds, and it is pending only
    while the was-playing flag is down. *)
Theorem one_pending_timer (evs : list Event) :
  let s := fst (run evs initial) in
  (List.length (timers s) <= 1)%nat
  /\ forall id due, In (id, due) (timers s) ->
                    clearTextTimeout s = Some id /\ aiWasPlaying s = false.
Proof.
  pose proof (reachable_timerInv evs) as H. cbn zeta.
  set (s := fst (run evs initial)) in *. unfold timerInv in H.
  destruct (timers s) as [|[i d] [|? ?]]; [| |destruct H].
  - split; [cbn; lia | intros id due []].
  - split; [cbn; lia|]. intros id due [E | []]. now injection E as -> _.
Qed.

(** X25: the cleanup of the component leaves no timer pending, in
    whatever state it runs: a timer callback that the browser would run
    afterwards does nothing. *)
Theorem cleanup_cancels_timer (evs : list Event) (now : Q) (id : nat) :
  let s := fst (cleanupTimer (fst (run evs initial))) in
  timers s = [] /\ step (TimerFired now id) s = (s, []).
Proof.
  pose proof (reachable_timerInv evs) as H. cbn zeta.
  set (s0 := fst (run evs initial)) in *.
  assert (Ht : timers (fst (cleanupTimer s0)) = []).
  { unfold cleanupTimer, update, timerInv in *. cbn [fst].
    destruct (timers s0) as [|[i d] [|? ?]] eqn:E; [| |destruct H].
    - destruct (clearTextTimeout s0); fields; now rewrite E.
    - destruct H as [-> _]. fields. rewrite E. cbn [filter fst].
      now rewrite Nat.eqb_refl. }
  split; [exact Ht|].
  cbn [step]. unfold dueOf. now rewrite Ht.
Qed.

Lemma statusesOf_app (es1 es2 : list Effect) :
  statusesOf (es1 ++ es2) = statusesOf es1 ++ statusesOf es2.
Proof. apply flat_map_app. Qed.

Lemma statusesOf_stops (l : list nat) : statusesOf (map Stop l) = [].
Proof. induction l as [|h r IH]; [reflexivity | exact IH]. Qed.

(** What an event does to the status line: nothing, or the one flip the
    was-playing flag allows. *)
Lemma step_status (ev : Event) (s : State) :
  let s' := fst (step ev s) in
  let l := statusesOf (snd (step ev s)) in
  (l = [] /\ aiWasPlaying s' = aiWasPlaying s)
  \/ (aiWasPlaying s = false /\ aiWasPlaying s' = true
      /\ l = ["AI is speaking..."]%string)
  \/ (aiWasPlaying s = true /\ aiWasPlaying s' = false
      /\ l = ["Listening..."]%string).
Proof.
  destruct ev as [t m|h|f|now id].
  - left. cbn [step].
    destruct (onmessage_sameFrameState t m s) as (_ & Ha & _).
    split; [|exact Ha].
    unfold onmessage. rewrite !snd_andThen, !statusesOf_app.
    destruct (pushWords_only_words m s) as [ws E]. rewrite E.
    cbn [fst snd statusesOf flat_map app]. set (s0 := set_turnWords _ s).
    assert (H1 : statusesOf (snd (playAudio t m s0)) = []).
    { destruct (carriesAudio m) as [b|] eqn:Hc.
      - now rewrite (playAudio_carries t m b Hc).
      - destruct (playAudio_silent t m Hc s0) as [_ [-> | ->]]; reflexivity. }
    fold (statusesOf (snd (playAudio t m s0))). rewrite H1. cbn [app].
    destruct (interrupted m) eqn:Hi.
    + destruct (interrupt_reset m (fst (playAudio t m s0)) Hi) as (-> & _).
      apply statusesOf_stops.
    + unfold interrupt. now rewrite Hi.
  - left. split; reflexivity.
  - cbn [step]. set (s0 := set_uVolume (frameVolume f s) s).
    destruct (sources s) as [|x xs] eqn:Hs.
    + destruct (aiWasPlaying s) eqn:Ha.
      * right; right. rewrite (render_falling f s Hs Ha). fold s0.
        split; [reflexivity|].
        destruct (fallingEdge_state (wallTime f) s0) as (_&_&_&_& Ha' & _).
        split; [exact Ha'|].
        unfold fallingEdge. rewrite !snd_andThen, !statusesOf_app.
        cbn [update perform fst snd statusesOf flat_map app].
        unfold showWord, setKineticText, andThen, update, perform.
        break_tests; reflexivity.
      * left. now rewrite (render_idle f s Hs Ha).
    + rewrite render_playing by (rewrite Hs; discriminate). fold s0.
      rewrite fst_andThen, snd_andThen, statusesOf_app.
      set (sp := fst (paceCaption (outputTime f) s0)).
      assert (Hp : statusesOf (snd (paceCaption (outputTime f) s0)) = []
                   /\ aiWasPlaying sp = aiWasPlaying s).
      { unfold sp, paceCaption, showWord, setKineticText, andThen, update,
          perform. break_tests; split; reflexivity. }
      destruct Hp as [-> Hap]. cbn [app].
      unfold risingEdge. destruct (aiWasPlaying sp) eqn:Ha.
      * left. split; [reflexivity | now rewrite <- Hap].
      * right; left. split; [now rewrite <- Hap|].
        unfold andThen, update, perform. cbn [fst snd app].
        split; [|reflexivity]. destruct (clearTextTimeout _); reflexivity.
  - left. handler_cases; split; reflexivity.
Qed.

Lemma run_status (evs : list Event) :
  forall s,
    alternating (negb (aiWasPlaying s)) (statusesOf (snd (run evs s))).
Proof.
  induction evs as [|ev rest IH]; intros s; [exact I|].
  rewrite snd_run_cons, statusesOf_app.
  specialize (IH (fst (step ev s))).
  destruct (step_status ev s)
    as [[-> Ha] | [(Hf & Ht & ->) | (Ht & Hf & ->)]]; cbn [app alternating].
  - now rewrite <- Ha.
  - rewrite Hf. rewrite Ht in IH. cbn [negb] in *. auto.
  - rewrite Ht. rewrite Hf in IH. cbn [negb] in *. auto.
Qed.

(** X27: over any run, the statuses set by the handlers say that the
    agent is speaking and that the client is listening in turn, speaking
    first: neither is ever set twice in a row. *)
Theorem status_alternates (evs : list Event) :
  alternating true (statusesOf (snd (run evs initial))).
Proof. apply (run_status evs initial). Qed.

(** X28: the caption has caught up when the audio ends: with at most six
    words per second of audio accumulated in a Turn of at least 0.1 s, a
    frame at or after the end of the scheduled audio computes the last
    word. *)
Theorem caption_catches_up (s : State) (t : Q) :
  (0 < List.length (turnWords s))%nat ->
  1 # 10 <= turnAudioDuration s ->
  inject_Z (Z.of_nat (List.length (turnWords s))) <= 6 * turnAudioDuration s ->
  turnStartTime s + turnAudioDuration s <= t ->
  activeWordAbsolute s t = (Z.of_nat (List.length (turnWords s)) - 1)%Z.
Proof.
  intros Hn Hd Hrate Ht. unfold activeWordAbsolute.
  set (n := List.length (turnWords s)) in *. set (d := turnAudioDuration s) in *.
  apply Z.min_r.
  assert (He : Qmax 0 (Qmin (t - turnStartTime s) d) == d).
  { destruct (Q.min_spec (t - turnStartTime s) d) as [[H1 E1] | [H1 E1]];
      destruct (Q.max_spec 0 (Qmin (t - turnStartTime s) d))
        as [[H2 E2] | [H2 E2]]; lra. }
  assert (Hm : Qmax (1 # 10) d == d).
  { destruct (Q.max_spec (1 # 10) d) as [[H1 E1] | [H1 E1]]; lra. }
  assert (Hraw : d * smoothedWps n d >= inject_Z (Z.of_nat n)).
  { unfold smoothedWps.
    set (raw := inject_Z (Z.of_nat n) / Qmax (1 # 10) d).
    assert (Hr : raw * d == inject_Z (Z.of_nat n)).
    { unfold raw. rewrite Hm. field. lra. }
    destruct (Q.max_spec raw 2) as [[H1 E1] | [H1 E1]];
      destruct (Q.min_spec (Qmax raw 2) 6) as [[H2 E2] | [H2 E2]];
      rewrite E2; nra. }
  assert (Hf : (Z.of_nat n <= Qfloor (Qmax 0 (Qmin (t - turnStartTime s) d)
                                       * smoothedWps n d))%Z).
  { rewrite <- (Qfloor_Z (Z.of_nat n)). apply Qfloor_resp_le.
    rewrite He. exact Hraw. }
  lia.
Qed.

Lemma caption_catches_up_witness :
  let s := fst (run (helloTurn 0) initial) in
  (0 < List.length (turnWords s))%nat
  /\ 1 # 10 <= turnAudioDuration s
  /\ inject_Z (Z.of_nat (List.length (turnWords s)))
     <= 6 * turnAudioDuration s
  /\ turnStartTime s + turnAudioDuration s <= 3
  /\ activeWordAbsolute s 3 = (Z.of_nat (List.length (turnWords s)) - 1)%Z.
Proof.
  set (s := fst (run (helloTurn 0) initial)).
  assert (H1 : (0 < List.length (turnWords s))%nat)
    by (vm_compute; repeat constructor).
  assert (H2 : 1 # 10 <= turnAudioDuration s) by (vm_compute; discriminate).
  assert (H3 : inject_Z (Z.of_nat (List.length (turnWords s)))
               <= 6 * turnAudioDuration s) by (vm_compute; discriminate).
  assert (H4 : turnStartTime s + turnAudioDuration s <= 3)
    by (vm_compute; discriminate).
  exact (conj H1 (conj H2 (conj H3 (conj H4
           (caption_catches_up s 3 H1 H2 H3 H4))))).
Defined.

End FrameFacts.

Module AppFacts.
Import App.

Lemma handleStart_fold (outcomes : list bool) :
  forall st,
    let st' := fold_left (fun st granted => handleStart granted st)
                         outcomes st in
    hasStarted st' = hasStarted st || existsb (fun g => g) outcomes
    /\ micError st'
       = if existsb negb outcomes
         then Some "Microphone access is required for this experience."%string
         else micError st.
Proof.
  induction outcomes as [|g rest IH]; intros st.
  - cbn. now rewrite orb_false_r.
  - cbn [fold_left existsb]. destruct (IH (handleStart g st)) as [H1 H2].
    cbn zeta. rewrite H1, H2. destruct g; cbn [handleStart hasStarted
      micError negb orb].
    + split; [now rewrite orb_true_r | reflexivity].
    + split; [reflexivity | now destruct (existsb negb rest)].
Qed.

(** X26: after any sequence of attempts to start, the scene is mounted
    exactly when the microphone was granted at least once; otherwise the
    landing page is shown, with the microphone error exactly when an
    attempt was refused. *)
Theorem scene_needs_microphone (outcomes : list bool) :
  view (fold_left (fun st granted => handleStart granted st)
                  outcomes initialApp)
  = if existsb (fun g => g) outcomes then Galaxy
    else Landing
           (if existsb negb outcomes
            then Some "Microphone access is required for this experience."%string
            else None).
Proof.
  destruct (handleStart_fold outcomes initialApp) as [H1 H2].
  unfold view. rewrite H1, H2. reflexivity.
Qed.

End AppFacts.
